(** * PackageGraph: the monorepo package graph of the Backstage CLI

    A shallow embedding of [packages/cli/src/lib/monorepo/PackageGraph.ts]:
    graph construction ([fromPackages]), the name-collecting traversal
    ([collectPackageNames]) and changed-package detection
    ([listChangedPackages]), followed by the properties proved of them.

    Conventions of the embedding.
    - A JavaScript string is a [string]; one [ascii] stands for one code
      unit, so [String.compare] is the order of [<] and of the default
      [Array.prototype.sort].
    - A JavaScript [Map] whose iteration order is observed is an
      insertion-ordered list of entries ([jsmap]); the neighbour maps of a
      node, which are only ever written and looked up, are [gmap]s.
    - A [Set<string>] is a [gset string].
    - A node object referenced from another node is a handle: the key under
      which the graph stores it. *)

From Stdlib Require Import Ascii String.
From stdpp Require Import base option list sorting gmap strings.

(** ** Insertion-ordered maps: the JavaScript [Map] *)

Section jsmap.
Context {V : Type}.

Definition jsmap := list (string * V).

(** [map.get(key)] *)
Fixpoint jsmap_get (m : jsmap) (key : string) : option V :=
  match m with
  | [] => None
  | (k, v) :: m' => if decide (k = key) then Some v else jsmap_get m' key
  end.

(** [map.set(key, value)]: an existing key keeps its position. *)
Fixpoint jsmap_set (m : jsmap) (key : string) (value : V) : jsmap :=
  match m with
  | [] => [(key, value)]
  | (k, v) :: m' =>
      if decide (k = key) then (k, value) :: m'
      else (k, v) :: jsmap_set m' key value
  end.

(** [map.keys()] and [map.values()], in insertion order. *)
Definition jsmap_keys (m : jsmap) : list string := m.*1.
Definition jsmap_values (m : jsmap) : list V := m.*2.

(** [new Map(entries)] *)
Definition jsmap_of_entries (entries : list (string * V)) : jsmap :=
  foldl (λ m e, jsmap_set m e.1 e.2) [] entries.
End jsmap.

Global Arguments jsmap : clear implicits.

(** ** Data model *)

(** The part of [package.json] the graph reads. A dependency object is the
    list of its entries in [Object.keys] order, or [None] when the field is
    absent. *)
Record PackageJSON := {
  name : string;
  dependencies : option (list (string * string));
  devDependencies : option (list (string * string));
  optionalDependencies : option (list (string * string));
}.

Record Package := {
  dir : string;
  packageJson : PackageJSON;
}.

(** [Object.keys(deps || {})] *)
Definition Object_keys (deps : option (list (string * string))) : list string :=
  match deps with
  | Some entries => entries.*1
  | None => []
  end.

(** A reference to a node of the graph: the key it is stored under. *)
Abbreviation NodeRef := string (only parsing).

Record PackageGraphNode := {
  node_name : string;
  node_dir : string;
  node_packageJson : PackageJSON;
  allLocalDependencies : gmap string NodeRef;
  publishedLocalDependencies : gmap string NodeRef;
  localDependencies : gmap string NodeRef;
  localDevDependencies : gmap string NodeRef;
  localOptionalDependencies : gmap string NodeRef;
}.

Abbreviation PackageGraph := (jsmap PackageGraphNode).

(** A call either returns or throws [new Error(message)]. *)
Inductive result (A : Type) : Type :=
  | Ok (value : A)
  | Throw (message : string).
Global Arguments Ok {A} value.
Global Arguments Throw {A} message.

(** ** [PackageGraph.fromPackages] *)

Definition duplicate_message (name dir existingDir : string) : string :=
  "Duplicate package name '" +:+ name +:+ "' at " +:+ dir +:+ " and " +:+ existingDir.

Definition newNode (pkg : Package) : PackageGraphNode := {|
  node_name := name (packageJson pkg);
  node_dir := dir pkg;
  node_packageJson := packageJson pkg;
  allLocalDependencies := ∅;
  publishedLocalDependencies := ∅;
  localDependencies := ∅;
  localDevDependencies := ∅;
  localOptionalDependencies := ∅;
|}.

(** First loop: add all local packages to the graph. *)
Fixpoint addPackages (packages : list Package) (graph : PackageGraph)
    : result PackageGraph :=
  match packages with
  | [] => Ok graph
  | pkg :: packages' =>
      let name := name (packageJson pkg) in
      match jsmap_get graph name with
      | Some existingPkg =>
          Throw (duplicate_message name (dir pkg) (node_dir existingPkg))
      | None => addPackages packages' (jsmap_set graph name (newNode pkg))
      end
  end.

(** The bodies of the three inner loops, once [graph.get(depName)] has
    answered [depPkg]. *)
Definition setDependency (depName : string) (depPkg : NodeRef)
    (node : PackageGraphNode) : PackageGraphNode := {|
  node_name := node_name node;
  node_dir := node_dir node;
  node_packageJson := node_packageJson node;
  allLocalDependencies := <[depName := depPkg]> (allLocalDependencies node);
  publishedLocalDependencies :=
    <[depName := depPkg]> (publishedLocalDependencies node);
  localDependencies := <[depName := depPkg]> (localDependencies node);
  localDevDependencies := localDevDependencies node;
  localOptionalDependencies := localOptionalDependencies node;
|}.

Definition setDevDependency (depName : string) (depPkg : NodeRef)
    (node : PackageGraphNode) : PackageGraphNode := {|
  node_name := node_name node;
  node_dir := node_dir node;
  node_packageJson := node_packageJson node;
  allLocalDependencies := <[depName := depPkg]> (allLocalDependencies node);
  publishedLocalDependencies := publishedLocalDependencies node;
  localDependencies := localDependencies node;
  localDevDependencies := <[depName := depPkg]> (localDevDependencies node);
  localOptionalDependencies := localOptionalDependencies node;
|}.

Definition setOptionalDependency (depName : string) (depPkg : NodeRef)
    (node : PackageGraphNode) : PackageGraphNode := {|
  node_name := node_name node;
  node_dir := node_dir node;
  node_packageJson := node_packageJson node;
  allLocalDependencies := <[depName := depPkg]> (allLocalDependencies node);
  publishedLocalDependencies :=
    <[depName := depPkg]> (publishedLocalDependencies node);
  localDependencies := localDependencies node;
  localDevDependencies := localDevDependencies node;
  localOptionalDependencies :=
    <[depName := depPkg]> (localOptionalDependencies node);
|}.

(** [graph.get(depName)] as a reference: the handle of the node found. *)
Definition graph_ref (graph : PackageGraph) (depName : string) : option NodeRef :=
  match jsmap_get graph depName with
  | Some _ => Some depName
  | None => None
  end.

(** One inner loop: [for (const depName of depNames) { ... if (depPkg) ... }]. *)
Definition linkAll (set : string → NodeRef → PackageGraphNode → PackageGraphNode)
    (graph : PackageGraph) (depNames : list string)
    (node : PackageGraphNode) : PackageGraphNode :=
  foldl (λ node depName,
           match graph_ref graph depName with
           | Some depPkg => set depName depPkg node
           | None => node
           end) node depNames.

(** The body of the second loop for one node. *)
Definition populateNode (graph : PackageGraph) (node : PackageGraphNode)
    : PackageGraphNode :=
  let json := node_packageJson node in
  let node := linkAll setDependency graph (Object_keys (dependencies json)) node in
  let node := linkAll setDevDependency graph (Object_keys (devDependencies json)) node in
  linkAll setOptionalDependency graph (Object_keys (optionalDependencies json)) node.

(** Second loop: populate the local dependency structure. The keys of the
    graph do not change any more, so every node is populated against the
    same key set. *)
Definition populate (graph : PackageGraph) : PackageGraph :=
  (λ entry, (entry.1, populateNode graph entry.2)) <$> graph.

Definition fromPackages (packages : list Package) : result PackageGraph :=
  match addPackages packages [] with
  | Ok graph => Ok (populate graph)
  | Throw message => Throw message
  end.

(** ** [PackageGraph.collectPackageNames] *)

Definition not_found_message (name : string) : string :=
  "Package '" +:+ name +:+ "' not found".

(** The state of the [while] loop. [searchNames] is the array read from its
    end: the head of the list is the element [pop()] removes, and
    [push(...collected)] puts the collected names, last one first, in front.
    [calls] records the names whose node was handed to [collectFn], oldest
    first. *)
Record search := {
  targets : gset string;
  searchNames : list string;
  calls : list string;
}.

(** [collectFn] answers [undefined] or an iterable of names. *)
Abbreviation collector := (PackageGraphNode → option (list string)) (only parsing).

Definition collected_names (collected : option (list string)) : list string :=
  match collected with
  | Some names => names
  | None => []
  end.

(** [searchNames.push(...names)] *)
Definition push_all (searchNames names : list string) : list string :=
  reverse names ++ searchNames.

Inductive control : Type :=
  | Continue (st : search)
  | Raise (message : string).

(** The loop body for the popped [name]; [rest] is the array after
    [pop()]. *)
Definition search_body (graph : PackageGraph) (collectFn : collector)
    (name : string) (targets : gset string) (rest calls : list string) : control :=
  if decide (name ∈ targets) then
    Continue {| targets := targets; searchNames := rest; calls := calls |}
  else
    match jsmap_get graph name with
    | None => Raise (not_found_message name)
    | Some node =>
        Continue {| targets := targets ∪ {[name]};
                    searchNames := push_all rest (collected_names (collectFn node));
                    calls := calls ++ [name] |}
    end.

(** [while (searchNames.length) { ... }], at most [fuel] iterations. [None]
    means the iterations ran out before the loop was left. *)
Fixpoint search_loop (fuel : nat) (graph : PackageGraph) (collectFn : collector)
    (st : search) : option (result (gset string) * list string) :=
  match searchNames st with
  | [] => Some (Ok (targets st), calls st)
  | name :: rest =>
      match fuel with
      | 0 => None
      | S fuel' =>
          match search_body graph collectFn name (targets st) rest (calls st) with
          | Continue st' => search_loop fuel' graph collectFn st'
          | Raise message => Some (Throw message, calls st)
          end
      end
  end.

Definition search_start (startingPackageNames : list string) : search :=
  {| targets := ∅; searchNames := push_all [] startingPackageNames; calls := [] |}.

(** Every iteration pops one name, and names are pushed only at the start
    and once per expanded node, which bounds the number of iterations. *)
Definition search_fuel (graph : PackageGraph) (collectFn : collector)
    (startingPackageNames : list string) : nat :=
  length startingPackageNames
  + sum_list_with (λ entry, length (collected_names (collectFn entry.2))) graph.

Definition collectPackageNames_run (graph : PackageGraph)
    (startingPackageNames : list string) (collectFn : collector)
    : option (result (gset string) * list string) :=
  search_loop (search_fuel graph collectFn startingPackageNames) graph collectFn
    (search_start startingPackageNames).

(** What the caller sees: the returned set or the error thrown. *)
Definition collectPackageNames (graph : PackageGraph)
    (startingPackageNames : list string) (collectFn : collector)
    : option (result (gset string)) :=
  fst <$> collectPackageNames_run graph startingPackageNames collectFn.

(** The invocations of [collectFn] made by the call, in order. *)
Definition collectFn_calls (graph : PackageGraph)
    (startingPackageNames : list string) (collectFn : collector)
    : option (list string) :=
  snd <$> collectPackageNames_run graph startingPackageNames collectFn.

(** ** [PackageGraph.listChangedPackages] *)

(** [a < b] on strings and [s.startsWith(prefix)]. *)
Definition str_lt (a b : string) : bool := String.ltb a b.
Definition startsWith (s prefix : string) : bool := String.prefix prefix s.

(** [array.sort()] on strings: the code-unit order is total and
    antisymmetric, so the sorted array is determined by its elements. *)
Definition sort (l : list string) : list string := merge_sort String.le l.

(** [while (changedFiles[searchIndex] satisfies p) searchIndex += 1], with
    [rest] the files from [searchIndex] on. An index past the end reads
    [undefined], which ends either loop of the source. *)
Fixpoint advance (p : string → bool) (rest : list string) (searchIndex : nat) : nat :=
  match rest with
  | [] => searchIndex
  | file :: rest' => if p file then advance p rest' (S searchIndex) else searchIndex
  end.

Definition skip_while (p : string → bool) (changedFiles : list string)
    (searchIndex : nat) : nat :=
  advance p (drop searchIndex changedFiles) searchIndex.

(** The body of [for (const packageDir of packageDirs)], on the pair of
    [searchIndex] and [result]. [packageDir] is a key of [dirMap], so
    [dirMap.get(packageDir)!] is a package; nothing is appended for a
    lookup that fails. *)
Definition scan_packageDir (changedFiles : list string)
    (dirMap : jsmap PackageGraphNode)
    (state : nat * list PackageGraphNode) (packageDir : string)
    : nat * list PackageGraphNode :=
  let '(searchIndex, result) := state in
  let searchIndex := skip_while (λ file, str_lt file packageDir) changedFiles searchIndex in
  match changedFiles !! searchIndex with
  | Some file =>
      if startsWith file packageDir then
        let searchIndex := S searchIndex in
        let result := result ++ option_list (jsmap_get dirMap packageDir) in
        (skip_while (λ file, startsWith file packageDir) changedFiles searchIndex, result)
      else (searchIndex, result)
  | None => (searchIndex, result)
  end.

Section listChangedPackages.
(** [relativeDir dir] stands for
    [posixPath.normalize(relativePath(paths.targetRoot, dir))]: the path
    helpers and the target root live outside this file. *)
Variable relativeDir : string → string.

(** The key of a package in [dirMap]. *)
Definition packageDir_of (pkg : PackageGraphNode) : string :=
  relativeDir (node_dir pkg) +:+ "/".

Definition dirMap_of (graph : PackageGraph) : jsmap PackageGraphNode :=
  jsmap_of_entries ((λ pkg, (packageDir_of pkg, pkg)) <$> jsmap_values graph).

(** [changedFiles] is the answer of [listChangedFiles(options.ref)]. *)
Definition listChangedPackages (graph : PackageGraph) (changedFiles : list string)
    : list PackageGraphNode :=
  let dirMap := dirMap_of graph in
  let packageDirs := jsmap_keys dirMap in
  let changedFiles := sort changedFiles in
  let packageDirs := sort packageDirs in
  (foldl (scan_packageDir changedFiles dirMap) (0, []) packageDirs).2.

End listChangedPackages.

(** * Vocabulary of the properties *)

(** ** Graph construction *)

Definition package_name (pkg : Package) : string := name (packageJson pkg).

(** The entries the first loop adds for a list of packages. *)
Definition new_entries (packages : list Package) : PackageGraph :=
  (λ pkg, (package_name pkg, newNode pkg)) <$> packages.

(** [depName] is listed in [depNames] and names a node of the graph. *)
Definition linked (graph : PackageGraph) (depNames : list string)
    (depName : string) : Prop :=
  depName ∈ depNames ∧ is_Some (jsmap_get graph depName).

#[global] Instance linked_dec graph depNames depName :
  Decision (linked graph depNames depName).
Proof. unfold linked. apply _. Defined.

(** The lists of names the three inner loops run over. *)
Definition depNames_of (node : PackageGraphNode) : list string :=
  Object_keys (dependencies (node_packageJson node)).
Definition devDepNames_of (node : PackageGraphNode) : list string :=
  Object_keys (devDependencies (node_packageJson node)).
Definition optionalDepNames_of (node : PackageGraphNode) : list string :=
  Object_keys (optionalDependencies (node_packageJson node)).

(** The keys of the five neighbour maps of a node. *)
Definition neighbour_keys (node : PackageGraphNode) : gset string :=
  dom (allLocalDependencies node) ∪ dom (publishedLocalDependencies node)
  ∪ dom (localDependencies node) ∪ dom (localDevDependencies node)
  ∪ dom (localOptionalDependencies node).

(** ** The traversal *)

Section traversal_terms.
Variable graph : PackageGraph.
Variable collectFn : PackageGraphNode → option (list string).

(** The names the search can come across: the starting names, and the names
    [collectFn] answers for the node of a name come across before. *)
Inductive encountered (startingPackageNames : list string) : string → Prop :=
  | encountered_start name :
      name ∈ startingPackageNames → encountered startingPackageNames name
  | encountered_collected name node depName :
      encountered startingPackageNames name →
      jsmap_get graph name = Some node →
      depName ∈ collected_names (collectFn node) →
      encountered startingPackageNames depName.

(** The names that may still be pushed: those [collectFn] answers for the
    nodes not yet in [targets]. *)
Definition pending (g : PackageGraph) (targets : gset string) : nat :=
  sum_list_with
    (λ entry, if decide (entry.1 ∈ targets) then 0
              else length (collected_names (collectFn entry.2))) g.

(** The invariant of the [while] loop. *)
Record search_inv (start : list string) (st : search) : Prop := {
  inv_calls_NoDup : NoDup (calls st);
  inv_calls_targets : ∀ name, name ∈ calls st ↔ name ∈ targets st;
  inv_encountered :
    ∀ name, name ∈ targets st ∨ name ∈ searchNames st → encountered start name;
  inv_present : ∀ name, name ∈ targets st → is_Some (jsmap_get graph name);
  inv_start : ∀ name, name ∈ start → name ∈ targets st ∨ name ∈ searchNames st;
  inv_closed :
    ∀ name node depName,
      name ∈ targets st →
      jsmap_get graph name = Some node →
      depName ∈ collected_names (collectFn node) →
      depName ∈ targets st ∨ depName ∈ searchNames st;
}.

(** What holds of the answer of the loop and of the calls it made. *)
Definition search_post (start : list string)
    (answer : result (gset string) * list string) : Prop :=
  NoDup answer.2
  ∧ match answer.1 with
    | Ok result =>
        (∀ name, name ∈ answer.2 ↔ name ∈ result)
        ∧ (∀ name, name ∈ result ↔ encountered start name)
        ∧ (∀ name, name ∈ result → is_Some (jsmap_get graph name))
    | Throw message =>
        ∃ name, message = not_found_message name
                ∧ encountered start name
                ∧ jsmap_get graph name = None
    end.

End traversal_terms.

(** The number of times [collectFn] was called on the node of [name]. *)
Definition invocations (name : string) (calls : list string) : nat :=
  length (filter (λ called, called = name) calls).

(** ** Change detection *)

(** What [result.push(dirMap.get(packageDir)!)] appends. *)
Definition getl (dirMap : jsmap PackageGraphNode) (packageDir : string)
    : list PackageGraphNode :=
  option_list (jsmap_get dirMap packageDir).

(** Some changed file lies under [packageDir]. *)
Definition owns_file (changedFiles : list string) (packageDir : string) : Prop :=
  ∃ file, file ∈ changedFiles ∧ startsWith file packageDir = true.

(** No other directory of [packageDirs] is a prefix of [packageDir]. *)
Definition outermost (packageDirs : list string) (packageDir : string) : Prop :=
  ∀ other, other ∈ packageDirs → startsWith packageDir other = true →
           other = packageDir.

Section scan_terms.
Variable changedFiles : list string.
Variable packageDirs : list string.

(** The state of the loop once the directories [done] are dealt with, of
    which those in [hits] were pushed. *)
Record scan_inv (done hits : list string) (searchIndex : nat) : Prop := {
  scan_passed :
    ∀ j file, j < searchIndex → changedFiles !! j = Some file →
      (∃ d, d ∈ done ∧ str_lt file d = true)
      ∨ (∃ d, d ∈ hits ∧ startsWith file d = true);
  scan_ahead :
    ∀ d j file, d ∈ done → searchIndex ≤ j → changedFiles !! j = Some file →
      startsWith file d = false;
  scan_sublist : hits `sublist_of` done;
  scan_hits :
    ∀ d, d ∈ done →
      (d ∈ hits ↔ owns_file changedFiles d ∧ outermost packageDirs d);
}.

End scan_terms.

(** ** Example graphs *)

Definition json (name : string) (deps devDeps optionalDeps : list string)
    : PackageJSON := {|
  name := name;
  dependencies := Some ((λ dep, (dep, "^1.0.0")) <$> deps);
  devDependencies := Some ((λ dep, (dep, "^1.0.0")) <$> devDeps);
  optionalDependencies := Some ((λ dep, (dep, "^1.0.0")) <$> optionalDeps);
|}.

(** Two packages that depend on each other, one of them on an external
    package as well. *)
Definition cyclic_packages : list Package :=
  [ {| dir := "pkg-a"; packageJson := json "a" ["b"; "react"] [] [] |};
    {| dir := "pkg-b"; packageJson := json "b" [] ["a"] ["a"] |} ].

Definition cyclic_graph : PackageGraph := populate (new_entries cyclic_packages).

Definition cyclic_a : PackageGraphNode :=
  populateNode (new_entries cyclic_packages)
    (newNode {| dir := "pkg-a"; packageJson := json "a" ["b"; "react"] [] [] |}).

Definition cyclic_b : PackageGraphNode :=
  populateNode (new_entries cyclic_packages)
    (newNode {| dir := "pkg-b"; packageJson := json "b" [] ["a"] ["a"] |}).

(** [node => node.allLocalDependencies.keys()] *)
Definition all_dependencies : PackageGraphNode → option (list string) :=
  λ node, Some (elements (dom (allLocalDependencies node))).

(** A package nested in the directory of another. *)
Definition nested_packages : list Package :=
  [ {| dir := "pkg"; packageJson := json "root" [] [] [] |};
    {| dir := "pkg/sub"; packageJson := json "child" [] [] [] |} ].

Definition nested_graph : PackageGraph := populate (new_entries nested_packages).


Definition nested_child : PackageGraphNode :=
  populateNode (new_entries nested_packages)
    (newNode {| dir := "pkg/sub"; packageJson := json "child" [] [] [] |}).

(** Two siblings, the name of one extending the name of the other. *)
Definition sibling_packages : list Package :=
  [ {| dir := "pkg-ab"; packageJson := json "ab" [] [] [] |};
    {| dir := "pkg-a"; packageJson := json "a" [] [] [] |} ].

Definition sibling_graph : PackageGraph := populate (new_entries sibling_packages).

Definition sibling_a : PackageGraphNode :=
  populateNode (new_entries sibling_packages)
    (newNode {| dir := "pkg-a"; packageJson := json "a" [] [] [] |}).

Definition sibling_ab : PackageGraphNode :=
  populateNode (new_entries sibling_packages)
    (newNode {| dir := "pkg-ab"; packageJson := json "ab" [] [] [] |}).

(** The cyclic pair and a third package that takes the name [a] again. *)
Definition duplicated_packages : list Package :=
  cyclic_packages ++ [ {| dir := "other-a"; packageJson := json "a" [] [] [] |} ].

(** * Properties *)

(** ** Insertion-ordered maps *)

Section jsmap_facts.
Context {V : Type}.
Implicit Types (m : jsmap V) (k key : string) (v : V).

Lemma jsmap_get_app m m' key :
  jsmap_get (m ++ m') key =
  match jsmap_get m key with Some v => Some v | None => jsmap_get m' key end.
Proof.
  induction m as [|[k v] m IH]; simpl; [done|].
  by case_decide.
Qed.

Lemma jsmap_get_None m key : jsmap_get m key = None ↔ key ∉ jsmap_keys m.
Proof.
  unfold jsmap_keys. induction m as [|[k v] m IH]; simpl.
  - split; [intros _; apply not_elem_of_nil | done].
  - rewrite not_elem_of_cons. case_decide as Hk.
    + split; [done | intros [? _]; congruence].
    + rewrite IH. split; [intros ?; split; [congruence | done] | by intros [_ ?]].
Qed.

Lemma jsmap_get_is_Some m key : is_Some (jsmap_get m key) ↔ key ∈ jsmap_keys m.
Proof.
  rewrite <-not_eq_None_Some, jsmap_get_None.
  destruct (decide (key ∈ jsmap_keys m)); naive_solver.
Qed.

Lemma jsmap_get_Some_elem_of m key v : jsmap_get m key = Some v → (key, v) ∈ m.
Proof.
  induction m as [|[k' v'] m IH]; simpl; [done|].
  case_decide; intros; simplify_eq; [left | right; auto].
Qed.

Lemma jsmap_set_fresh m key v :
  jsmap_get m key = None → jsmap_set m key v = m ++ [(key, v)].
Proof.
  induction m as [|[k' v'] m IH]; simpl; [done|].
  case_decide; [done|]. intros ?. by rewrite IH.
Qed.

Lemma jsmap_keys_set m key v :
  jsmap_keys (jsmap_set m key v) =
  if decide (key ∈ jsmap_keys m) then jsmap_keys m else jsmap_keys m ++ [key].
Proof.
  unfold jsmap_keys. induction m as [|[k' v'] m IH]; csimpl.
  - done.
  - destruct (decide (k' = key)) as [->|Hk]; csimpl.
    + rewrite decide_True; [done | left].
    + rewrite IH. destruct (decide (key ∈ m.*1)) as [Hin|Hin].
      * rewrite decide_True; [done | by right].
      * rewrite decide_False; [done|]. rewrite not_elem_of_cons. by split.
Qed.

Lemma jsmap_get_set m key v k :
  jsmap_get (jsmap_set m key v) k =
  if decide (key = k) then Some v else jsmap_get m k.
Proof.
  induction m as [|[k' v'] m IH]; simpl.
  - done.
  - destruct (decide (k' = key)) as [->|Hne]; simpl.
    + by destruct (decide (key = k)).
    + rewrite IH. destruct (decide (k' = k)), (decide (key = k)); congruence.
Qed.

Lemma jsmap_get_fmap {W} (f : V → W) m key :
  jsmap_get ((λ entry, (entry.1, f entry.2)) <$> m) key = f <$> jsmap_get m key.
Proof.
  induction m as [|[k v] m IH]; simpl; [done|]. by case_decide.
Qed.
End jsmap_facts.

(** ** Graph construction: the first loop *)

Lemma jsmap_keys_new_entries packages :
  jsmap_keys (new_entries packages) = package_name <$> packages.
Proof.
  unfold jsmap_keys, new_entries. rewrite <-list_fmap_compose. done.
Qed.

Lemma new_entries_elem_of key node packages :
  (key, node) ∈ new_entries packages →
  ∃ pkg, pkg ∈ packages ∧ key = package_name pkg ∧ node = newNode pkg.
Proof.
  unfold new_entries. rewrite list_elem_of_fmap.
  intros (pkg & ? & ?). simplify_eq. eauto.
Qed.

Lemma fresh_after_entry (graph : PackageGraph) key node pkg :
  jsmap_get (graph ++ [(key, node)]) (package_name pkg) = None →
  key ≠ package_name pkg.
Proof.
  rewrite jsmap_get_app. destruct (jsmap_get graph _); [done|].
  simpl. by case_decide.
Qed.

Lemma fresh_before_entry (graph : PackageGraph) key node pkg :
  jsmap_get (graph ++ [(key, node)]) (package_name pkg) = None →
  jsmap_get graph (package_name pkg) = None.
Proof. rewrite jsmap_get_app. by destruct (jsmap_get graph _). Qed.

(** The first loop either adds every package, which happens exactly when
    no name is taken, or stops at the first package whose name is taken. *)
Lemma addPackages_cases packages graph :
  (NoDup (package_name <$> packages)
   ∧ (∀ pkg, pkg ∈ packages → jsmap_get graph (package_name pkg) = None)
   ∧ addPackages packages graph = Ok (graph ++ new_entries packages))
  ∨ (∃ pre pkg post existingPkg,
       packages = pre ++ pkg :: post
       ∧ NoDup (package_name <$> pre)
       ∧ (∀ pkg, pkg ∈ pre → jsmap_get graph (package_name pkg) = None)
       ∧ jsmap_get (graph ++ new_entries pre) (package_name pkg) = Some existingPkg
       ∧ addPackages packages graph =
           Throw (duplicate_message (package_name pkg) (dir pkg) (node_dir existingPkg))).
Proof.
  revert graph. induction packages as [|pkg packages IH]; intros graph.
  - left. split_and!; [constructor | by intros ? ?%elem_of_nil |].
    simpl. by rewrite app_nil_r.
  - simpl. fold (package_name pkg).
    destruct (jsmap_get graph (package_name pkg)) as [existingPkg|] eqn:Hget.
    + right. exists [], pkg, packages, existingPkg.
      split_and!; [done | constructor | by intros ? ?%elem_of_nil
                   | by rewrite app_nil_r | done].
    + rewrite (jsmap_set_fresh _ _ _ Hget).
      destruct (IH (graph ++ [(package_name pkg, newNode pkg)]))
        as [(Hnd & Hfresh & Hok)
           | (pre & pkg' & post & ex & -> & Hnd & Hfresh & Hex & Hthrow)].
      * left. split_and!.
        -- csimpl. constructor; [|done]. intros (pkg' & Heq & Hin)%list_elem_of_fmap.
           eapply fresh_after_entry; eauto.
        -- intros pkg' [->|Hin]%elem_of_cons; [done|].
           eapply fresh_before_entry; eauto.
        -- rewrite Hok. by rewrite <-app_assoc.
      * right. exists (pkg :: pre), pkg', post, ex.
        rewrite <-app_assoc in Hex. split_and!; [done | | | done | done].
        -- csimpl. constructor; [|done].
           intros (p & Heq & Hin)%list_elem_of_fmap.
           eapply fresh_after_entry; eauto.
        -- intros p [->|Hin]%elem_of_cons; [done|].
           eapply fresh_before_entry; eauto.
Qed.

Lemma new_entries_get packages key existingPkg :
  jsmap_get (new_entries packages) key = Some existingPkg →
  ∃ pre pkg post,
    packages = pre ++ pkg :: post ∧ package_name pkg = key ∧ existingPkg = newNode pkg.
Proof.
  intros (pkg & Hin & -> & ->)%jsmap_get_Some_elem_of%new_entries_elem_of.
  apply list_elem_of_split in Hin as (pre & post & ->). by exists pre, pkg, post.
Qed.

Lemma fromPackages_Ok packages :
  NoDup (package_name <$> packages) →
  fromPackages packages = Ok (populate (new_entries packages)).
Proof.
  intros Hnd. unfold fromPackages.
  destruct (addPackages_cases packages [])
    as [(_ & _ & ->) | (pre & pkg & post & ex & -> & _ & _ & Hex & _)]; [done|].
  simpl in Hex. apply new_entries_get in Hex as (pre1 & p1 & mid & -> & Hname & _).
  exfalso. revert Hnd. rewrite <-app_assoc. csimpl.
  rewrite fmap_app. csimpl. rewrite fmap_app. csimpl.
  intros (_ & _ & [Hnd _]%NoDup_cons)%NoDup_app. apply Hnd.
  rewrite Hname. apply elem_of_app. right. left.
Qed.

Lemma fromPackages_Ok_inv packages graph :
  fromPackages packages = Ok graph →
  NoDup (package_name <$> packages) ∧ graph = populate (new_entries packages).
Proof.
  unfold fromPackages.
  destruct (addPackages_cases packages [])
    as [(Hnd & _ & ->) | (pre & pkg & post & ex & -> & _ & _ & _ & ->)]; [|done].
  simpl. by intros [= <-].
Qed.

(** C2: with two descriptors of one name, [fromPackages] throws the
    duplicate-name error, whose message is the text
    [Duplicate package name '<name>' at <dir> and <dir>] with the duplicated
    name, the directory of the later descriptor and the directory of the
    earlier one written into it; with pairwise distinct names it returns a
    graph. *)
Theorem fromPackages_duplicate_name packages :
  (NoDup (package_name <$> packages) → ∃ graph, fromPackages packages = Ok graph)
  ∧ (¬ NoDup (package_name <$> packages) →
     ∃ pre pkg1 mid pkg2 post,
       packages = pre ++ pkg1 :: mid ++ pkg2 :: post
       ∧ package_name pkg1 = package_name pkg2
       ∧ fromPackages packages =
           Throw ("Duplicate package name '" +:+ package_name pkg2
                  +:+ "' at " +:+ dir pkg2 +:+ " and " +:+ dir pkg1)).
Proof.
  split.
  - intros Hnd. eexists. by apply fromPackages_Ok.
  - intros Hdup. unfold fromPackages.
    destruct (addPackages_cases packages [])
      as [(Hnd & _) | (pre & pkg & post & ex & -> & _ & _ & Hex & ->)]; [done|].
    simpl in Hex. apply new_entries_get in Hex as (pre1 & p1 & mid & -> & Hname & ->).
    exists pre1, p1, mid, pkg, post. by rewrite <-app_assoc.
Qed.

(** ** Graph construction: the second loop *)

Section populate_facts.
Variable graph : PackageGraph.

Lemma graph_ref_Some depName depPkg :
  graph_ref graph depName = Some depPkg ↔
  depPkg = depName ∧ is_Some (jsmap_get graph depName).
Proof.
  unfold graph_ref. destruct (jsmap_get graph depName).
  - split; [intros [= <-]; eauto | by intros [-> _]].
  - split; [done | intros [_ []]; done].
Qed.

(** A neighbour map that the loop body writes. *)
Lemma linkAll_written (proj : PackageGraphNode → gmap string string) set
    depNames node key :
  (∀ d r n, proj (set d r n) = <[d := r]> (proj n)) →
  proj (linkAll set graph depNames node) !! key =
  if decide (linked graph depNames key) then Some key else proj node !! key.
Proof.
  intros Hset. unfold linkAll. revert node.
  induction depNames as [|d depNames IH]; intros node; cbn [foldl].
  - rewrite decide_False; [done|]. intros [?%elem_of_nil _]. done.
  - rewrite IH. destruct (decide (linked graph depNames key)) as [Hl|Hl].
    + rewrite decide_True; [done|]. destruct Hl. split; [by right | done].
    + destruct (graph_ref graph d) as [r|] eqn:Hr.
      * apply graph_ref_Some in Hr as [-> Hd]. rewrite Hset.
        destruct (decide (d = key)) as [->|Hne].
        -- rewrite lookup_insert_eq, decide_True; [done|]. split; [left | done].
        -- rewrite lookup_insert_ne by done. rewrite decide_False; [done|].
           intros [[?|?]%elem_of_cons ?]; [congruence|]. by apply Hl.
      * rewrite decide_False; [done|].
        intros [[->|?]%elem_of_cons Hk]; [|by apply Hl].
        assert (graph_ref graph d = Some d) by (by apply graph_ref_Some).
        congruence.
Qed.

(** A field that the loop body leaves alone. *)
Lemma linkAll_untouched {A} (proj : PackageGraphNode → A) set depNames node :
  (∀ d r n, proj (set d r n) = proj n) →
  proj (linkAll set graph depNames node) = proj node.
Proof.
  intros Hset. unfold linkAll. revert node.
  induction depNames as [|d depNames IH]; intros node; simpl; [done|].
  rewrite IH. destruct (graph_ref graph d); [apply Hset | done].
Qed.

Lemma populateNode_packageJson node :
  node_packageJson (populateNode graph node) = node_packageJson node.
Proof.
  unfold populateNode.
  by rewrite !(linkAll_untouched node_packageJson).
Qed.

Lemma populateNode_name node : node_name (populateNode graph node) = node_name node.
Proof. unfold populateNode. by rewrite !(linkAll_untouched node_name). Qed.

Lemma populateNode_dir node : node_dir (populateNode graph node) = node_dir node.
Proof. unfold populateNode. by rewrite !(linkAll_untouched node_dir). Qed.

Lemma populateNode_localDependencies node key :
  localDependencies (populateNode graph node) !! key =
  if decide (linked graph (depNames_of node) key) then Some key
  else localDependencies node !! key.
Proof.
  unfold populateNode.
  rewrite !(linkAll_untouched localDependencies) by done.
  by rewrite (linkAll_written localDependencies).
Qed.

Lemma populateNode_localDevDependencies node key :
  localDevDependencies (populateNode graph node) !! key =
  if decide (linked graph (devDepNames_of node) key) then Some key
  else localDevDependencies node !! key.
Proof.
  unfold populateNode.
  rewrite !(linkAll_untouched localDevDependencies) by done.
  rewrite (linkAll_written localDevDependencies) by done.
  by rewrite !(linkAll_untouched localDevDependencies).
Qed.

Lemma populateNode_localOptionalDependencies node key :
  localOptionalDependencies (populateNode graph node) !! key =
  if decide (linked graph (optionalDepNames_of node) key) then Some key
  else localOptionalDependencies node !! key.
Proof.
  unfold populateNode.
  rewrite (linkAll_written localOptionalDependencies) by done.
  by rewrite !(linkAll_untouched localOptionalDependencies).
Qed.

Lemma populateNode_allLocalDependencies node key :
  allLocalDependencies (populateNode graph node) !! key =
  if decide (linked graph (optionalDepNames_of node) key) then Some key
  else if decide (linked graph (devDepNames_of node) key) then Some key
  else if decide (linked graph (depNames_of node) key) then Some key
  else allLocalDependencies node !! key.
Proof.
  unfold populateNode.
  by rewrite !(linkAll_written allLocalDependencies).
Qed.

Lemma populateNode_publishedLocalDependencies node key :
  publishedLocalDependencies (populateNode graph node) !! key =
  if decide (linked graph (optionalDepNames_of node) key) then Some key
  else if decide (linked graph (depNames_of node) key) then Some key
  else publishedLocalDependencies node !! key.
Proof.
  unfold populateNode.
  rewrite (linkAll_written publishedLocalDependencies) by done.
  rewrite (linkAll_untouched publishedLocalDependencies) by done.
  by rewrite (linkAll_written publishedLocalDependencies).
Qed.
End populate_facts.

(** ** The nodes of a built graph *)

Lemma built_node packages graph node :
  fromPackages packages = Ok graph →
  node ∈ jsmap_values graph →
  ∃ pkg, pkg ∈ packages
         ∧ node = populateNode (new_entries packages) (newNode pkg).
Proof.
  intros [_ ->]%fromPackages_Ok_inv. unfold jsmap_values, populate, new_entries.
  rewrite <-!list_fmap_compose. intros (pkg & -> & Hin)%list_elem_of_fmap.
  by exists pkg.
Qed.

Lemma linked_new_entries packages depNames depName :
  linked (new_entries packages) depNames depName →
  depName ∈ package_name <$> packages.
Proof.
  intros [_ Hsome]. apply jsmap_get_is_Some in Hsome.
  by rewrite jsmap_keys_new_entries in Hsome.
Qed.

(** Rewrites the lookups in the five maps of a populated fresh node. *)
Ltac neighbour_lookups :=
  rewrite ?lookup_union, ?populateNode_allLocalDependencies,
    ?populateNode_publishedLocalDependencies, ?populateNode_localDependencies,
    ?populateNode_localDevDependencies, ?populateNode_localOptionalDependencies;
  cbn [newNode allLocalDependencies publishedLocalDependencies localDependencies
       localDevDependencies localOptionalDependencies];
  rewrite ?lookup_empty.

(** C3: in a built graph [allLocalDependencies] of a node is the union of
    its [localDependencies], [localDevDependencies] and
    [localOptionalDependencies]: the maps are equal, and a name maps to a
    node in the first exactly when it maps to that node in one of the
    three. *)
Theorem allLocalDependencies_is_union packages graph node :
  fromPackages packages = Ok graph →
  node ∈ jsmap_values graph →
  allLocalDependencies node =
    localDependencies node ∪ localDevDependencies node ∪ localOptionalDependencies node
  ∧ ∀ depName depPkg,
      allLocalDependencies node !! depName = Some depPkg ↔
      localDependencies node !! depName = Some depPkg
      ∨ localDevDependencies node !! depName = Some depPkg
      ∨ localOptionalDependencies node !! depName = Some depPkg.
Proof.
  intros Hbuilt Hnode.
  destruct (built_node _ _ _ Hbuilt Hnode) as (pkg & _ & ->). split.
  - apply map_eq. intros depName. neighbour_lookups.
    repeat case_decide; done.
  - intros depName depPkg. neighbour_lookups.
    repeat case_decide; intuition congruence.
Qed.

(** C4: in a built graph [publishedLocalDependencies] of a node is the
    union of its [localDependencies] and [localOptionalDependencies], and a
    name listed neither under [dependencies] nor under
    [optionalDependencies] of the node's descriptor, such as a dev-only
    one, is not a key of it. *)
Theorem publishedLocalDependencies_is_union packages graph node :
  fromPackages packages = Ok graph →
  node ∈ jsmap_values graph →
  publishedLocalDependencies node =
    localDependencies node ∪ localOptionalDependencies node
  ∧ (∃ pkg, pkg ∈ packages ∧ node_packageJson node = packageJson pkg)
  ∧ ∀ depName,
      depName ∉ Object_keys (dependencies (node_packageJson node)) →
      depName ∉ Object_keys (optionalDependencies (node_packageJson node)) →
      publishedLocalDependencies node !! depName = None.
Proof.
  intros Hbuilt Hnode.
  destruct (built_node _ _ _ Hbuilt Hnode) as (pkg & Hpkg & ->). split_and!.
  - apply map_eq. intros depName. neighbour_lookups.
    repeat case_decide; done.
  - exists pkg. by rewrite populateNode_packageJson.
  - intros depName. rewrite populateNode_packageJson. intros Hdep Hopt.
    neighbour_lookups. unfold linked, depNames_of, optionalDepNames_of.
    cbn [newNode node_packageJson]. repeat case_decide; tauto.
Qed.

(** C5: for descriptors with pairwise distinct names the graph is built,
    every key of the five neighbour maps of each of its nodes is the name of
    a descriptor of the input, and a name that no descriptor has is absent
    from all five maps. *)
Theorem neighbour_maps_local packages :
  NoDup (package_name <$> packages) →
  ∃ graph,
    fromPackages packages = Ok graph
    ∧ ∀ node, node ∈ jsmap_values graph →
        (∀ depName, depName ∈ neighbour_keys node →
                    ∃ pkg, pkg ∈ packages ∧ package_name pkg = depName)
        ∧ (∀ depName, depName ∉ package_name <$> packages →
             allLocalDependencies node !! depName = None
             ∧ publishedLocalDependencies node !! depName = None
             ∧ localDependencies node !! depName = None
             ∧ localDevDependencies node !! depName = None
             ∧ localOptionalDependencies node !! depName = None).
Proof.
  intros Hnd. eexists. split; [by apply fromPackages_Ok|].
  intros node Hnode.
  destruct (built_node _ _ _ (fromPackages_Ok _ Hnd) Hnode) as (pkg & Hpkg & ->).
  assert (∀ depName, depName ∉ package_name <$> packages →
            ∀ depNames, ¬ linked (new_entries packages) depNames depName) as Hext.
  { intros depName Hout depNames Hl. by apply Hout, (linked_new_entries _ depNames). }
  assert (∀ depName, depName ∉ package_name <$> packages →
     allLocalDependencies (populateNode (new_entries packages) (newNode pkg)) !! depName = None
     ∧ publishedLocalDependencies (populateNode (new_entries packages) (newNode pkg)) !! depName = None
     ∧ localDependencies (populateNode (new_entries packages) (newNode pkg)) !! depName = None
     ∧ localDevDependencies (populateNode (new_entries packages) (newNode pkg)) !! depName = None
     ∧ localOptionalDependencies (populateNode (new_entries packages) (newNode pkg)) !! depName = None)
    as Habsent.
  { intros depName Hout. specialize (Hext _ Hout). neighbour_lookups.
    rewrite !decide_False by apply Hext. done. }
  split; [|done].
  intros depName Hkey.
  destruct (decide (depName ∈ package_name <$> packages)) as [Hin|Hout].
  - apply list_elem_of_fmap in Hin as (p & -> & ?). by exists p.
  - destruct (Habsent _ Hout) as (H1 & H2 & H3 & H4 & H5).
    unfold neighbour_keys in Hkey. rewrite !elem_of_union, !elem_of_dom in Hkey.
    rewrite H1, H2, H3, H4, H5 in Hkey.
    destruct Hkey as [[[[[]|[]]|[]]|[]]|[]]; done.
Qed.

(** ** The traversal *)

Section traversal.
Variable graph : PackageGraph.
Variable collectFn : PackageGraphNode → option (list string).

Lemma encountered_mono start1 start2 name :
  (∀ name, name ∈ start1 → name ∈ start2) →
  encountered graph collectFn start1 name → encountered graph collectFn start2 name.
Proof.
  intros Hsub. induction 1 as [name Hin | name node depName _ IH Hget Hdep].
  - apply encountered_start. auto.
  - by eapply encountered_collected.
Qed.

(** *** Termination *)

Lemma pending_mono g (targets : gset string) name :
  pending collectFn g (targets ∪ {[name]}) ≤ pending collectFn g targets.
Proof.
  unfold pending. induction g as [|[k v] g IH]; simpl; [done|].
  destruct (decide (k ∈ targets)) as [Hin|Hout].
  - rewrite decide_True by set_solver. lia.
  - case_decide; lia.
Qed.

Lemma pending_add g (targets : gset string) name node :
  jsmap_get g name = Some node →
  name ∉ targets →
  pending collectFn g (targets ∪ {[name]}) + length (collected_names (collectFn node))
  ≤ pending collectFn g targets.
Proof.
  intros Hget Hout. induction g as [|[k v] g IH]; [done|].
  simpl in Hget. unfold pending in *. cbn [sum_list_with fst snd].
  destruct (decide (k = name)) as [->|Hne].
  - injection Hget as ->.
    rewrite decide_True by set_solver. rewrite (decide_False _ _ Hout).
    pose proof (pending_mono g targets name) as Hm. unfold pending in Hm. lia.
  - specialize (IH Hget).
    destruct (decide (k ∈ targets)) as [Hin|Hk].
    + rewrite decide_True by (apply elem_of_union; auto). lia.
    + rewrite decide_False by (rewrite elem_of_union, elem_of_singleton; tauto). lia.
Qed.

Lemma pending_le g (targets : gset string) :
  pending collectFn g targets
  ≤ sum_list_with (λ entry, length (collected_names (collectFn entry.2))) g.
Proof.
  unfold pending. induction g as [|[k v] g IH]; simpl; [done|].
  case_decide; lia.
Qed.

Lemma search_loop_terminates fuel st :
  length (searchNames st) + pending collectFn graph (targets st) ≤ fuel →
  is_Some (search_loop fuel graph collectFn st).
Proof.
  revert st. induction fuel as [|fuel IH]; intros [tg names cs]; simpl.
  - destruct names; simpl; [eauto | lia].
  - destruct names as [|name rest]; simpl; [eauto|]. intros Hfuel.
    unfold search_body. destruct (decide (name ∈ tg)) as [Hin|Hout].
    + apply IH. simpl. lia.
    + destruct (jsmap_get graph name) as [node|] eqn:Hget; [|eauto].
      apply IH. simpl. unfold push_all.
      rewrite length_app, length_reverse.
      pose proof (pending_add graph tg name node Hget Hout). lia.
Qed.

Lemma collectPackageNames_run_terminates start :
  is_Some (collectPackageNames_run graph start collectFn).
Proof.
  apply search_loop_terminates. unfold search_start, search_fuel, push_all. simpl.
  rewrite app_nil_r, length_reverse.
  pose proof (pending_le graph ∅). lia.
Qed.

(** More iterations than needed change nothing. *)
Lemma search_loop_more_fuel fuel fuel' st r :
  search_loop fuel graph collectFn st = Some r →
  fuel ≤ fuel' →
  search_loop fuel' graph collectFn st = Some r.
Proof.
  revert fuel' st. induction fuel as [|fuel IH]; intros fuel' st; simpl.
  - destruct (searchNames st) eqn:Hs; [|done]. intros [= <-] _.
    destruct fuel'; simpl; by rewrite Hs.
  - destruct (searchNames st) as [|name rest] eqn:Hs.
    + intros [= <-] _. destruct fuel'; simpl; by rewrite Hs.
    + intros Hrun Hle. destruct fuel' as [|fuel']; [lia|]. simpl. rewrite Hs.
      destruct (search_body _ _ _ _ _ _); [|done].
      apply IH; [done | lia].
Qed.

(** *** The loop invariant *)

Lemma search_inv_start start : search_inv graph collectFn start (search_start start).
Proof.
  unfold search_start, push_all. rewrite app_nil_r.
  split; simpl.
  - constructor.
  - intros name. rewrite elem_of_nil. set_solver.
  - intros name [?|Hin]; [set_solver|].
    apply encountered_start. by apply elem_of_reverse.
  - set_solver.
  - intros name Hin. right. by apply elem_of_reverse.
  - set_solver.
Qed.

Lemma search_inv_body start tg name rest cs st' :
  search_inv graph collectFn start {| targets := tg; searchNames := name :: rest; calls := cs |} →
  search_body graph collectFn name tg rest cs = Continue st' →
  search_inv graph collectFn start st'.
Proof.
  intros [Hnd Hcs Henc Hpres Hstart Hclosed]. simpl in *. unfold search_body.
  destruct (decide (name ∈ tg)) as [Hin|Hout].
  - intros [= <-]. split; simpl; [done | done | | done | |].
    + intros n Hn. apply Henc. rewrite elem_of_cons. tauto.
    + intros n Hn. destruct (Hstart n Hn) as [?|[->|?]%elem_of_cons]; auto.
    + intros n node d Hn Hget Hd.
      destruct (Hclosed n node d Hn Hget Hd) as [?|[->|?]%elem_of_cons]; auto.
  - destruct (jsmap_get graph name) as [node|] eqn:Hget; [|done].
    intros [= <-]. unfold push_all. split; simpl.
    + apply NoDup_app. split_and!; [done | | apply NoDup_singleton].
      intros n Hn ->%list_elem_of_singleton. by apply Hout, Hcs.
    + intros n. rewrite elem_of_app, list_elem_of_singleton, Hcs.
      rewrite elem_of_union, elem_of_singleton. tauto.
    + intros n Hn.
      assert (encountered graph collectFn start name) as Hname.
      { apply Henc. right. left. }
      rewrite elem_of_union, elem_of_singleton, elem_of_app, elem_of_reverse in Hn.
      destruct Hn as [[?| ->]|[Hd|?]]; [apply Henc; auto | done | | ].
      * by eapply encountered_collected.
      * apply Henc. right. by right.
    + intros n [?| ->%elem_of_singleton]%elem_of_union; [auto | by rewrite Hget].
    + intros n Hn. rewrite elem_of_union, elem_of_singleton, elem_of_app.
      destruct (Hstart n Hn) as [?|[->|?]%elem_of_cons]; auto.
    + intros n node' d Hn Hget' Hd.
      rewrite elem_of_union, elem_of_singleton, elem_of_app, elem_of_reverse.
      apply elem_of_union in Hn as [Hn| ->%elem_of_singleton].
      * destruct (Hclosed n node' d Hn Hget' Hd) as [?|[->|?]%elem_of_cons]; auto.
      * rewrite Hget in Hget'. injection Hget' as <-. auto.
Qed.

Lemma search_inv_done start tg cs :
  search_inv graph collectFn start {| targets := tg; searchNames := []; calls := cs |} →
  search_post graph collectFn start (Ok tg, cs).
Proof.
  intros [Hnd Hcs Henc Hpres Hstart Hclosed]. simpl in *.
  split; [done|]. simpl. split_and!; [done | | done].
  intros n. split; [auto|].
  induction 1 as [n Hn | n node d _ IHn Hget Hd].
  - destruct (Hstart n Hn) as [?|?%elem_of_nil]; done.
  - destruct (Hclosed n node d IHn Hget Hd) as [?|?%elem_of_nil]; done.
Qed.

Lemma search_loop_post start fuel st answer :
  search_inv graph collectFn start st →
  search_loop fuel graph collectFn st = Some answer →
  search_post graph collectFn start answer.
Proof.
  revert st. induction fuel as [|fuel IH]; intros [tg names cs] Hinv; simpl.
  - destruct names as [|name rest]; [|done]. intros [= <-].
    by apply search_inv_done.
  - destruct names as [|name rest].
    + intros [= <-]. by apply search_inv_done.
    + destruct (search_body graph collectFn name tg rest cs) as [st'|message] eqn:Hbody.
      * apply IH. by eapply search_inv_body.
      * intros [= <-]. split; simpl; [apply Hinv|].
        unfold search_body in Hbody. case_decide; [done|].
        destruct (jsmap_get graph name) eqn:Hget; [done|].
        injection Hbody as <-. exists name. split_and!; [done | | done].
        apply Hinv. right. left.
Qed.

Lemma collectPackageNames_run_post start :
  ∃ answer, collectPackageNames_run graph start collectFn = Some answer
            ∧ search_post graph collectFn start answer.
Proof.
  destruct (collectPackageNames_run_terminates start) as [answer Hrun].
  exists answer. split; [done|].
  eapply search_loop_post; [apply search_inv_start | exact Hrun].
Qed.

Lemma collectPackageNames_run_spec start answer :
  collectPackageNames_run graph start collectFn = Some answer →
  search_post graph collectFn start answer.
Proof.
  intros Hrun. destruct (collectPackageNames_run_post start) as (answer' & Hrun' & Hpost).
  congruence.
Qed.

(** The traversal returns exactly when every name it can come across has a
    node, and then it returns the set of those names. *)
Lemma collectPackageNames_Ok_iff start (result : gset string) :
  collectPackageNames graph start collectFn = Some (Ok result) ↔
  (∀ name, encountered graph collectFn start name → is_Some (jsmap_get graph name))
  ∧ (∀ name, name ∈ result ↔ encountered graph collectFn start name).
Proof.
  unfold collectPackageNames.
  destruct (collectPackageNames_run_post start) as ([r cs] & -> & Hnd & Hpost).
  simpl in *. split.
  - intros [= ->]. destruct Hpost as (_ & Henc & Hpres). split; [|done].
    intros name Hname. by apply Hpres, Henc.
  - intros [Hpres Hresult]. destruct r as [result'|message].
    + destruct Hpost as (_ & Henc & _). do 2 f_equal. apply set_eq.
      intros name. by rewrite Henc, Hresult.
    + destruct Hpost as (name & _ & Hname & Hnone).
      apply Hpres in Hname as [node Hnode]. congruence.
Qed.


Lemma collectPackageNames_Throw_inv start message :
  collectPackageNames graph start collectFn = Some (Throw message) →
  ∃ name, message = not_found_message name
          ∧ encountered graph collectFn start name
          ∧ jsmap_get graph name = None.
Proof.
  unfold collectPackageNames.
  destruct (collectPackageNames_run_post start) as ([r cs] & -> & Hnd & Hpost).
  simpl in *. by intros [= ->].
Qed.

End traversal.

Lemma invocations_NoDup name calls :
  NoDup calls →
  invocations name calls = if decide (name ∈ calls) then 1 else 0.
Proof.
  unfold invocations. induction 1 as [|called calls Hout Hnd IH].
  - done.
  - rewrite filter_cons. destruct (decide (called = name)) as [->|Hne].
    + rewrite decide_True by left. simpl. rewrite IH.
      by rewrite decide_False.
    + rewrite IH. destruct (decide (name ∈ calls)) as [Hin|Hnin].
      * rewrite decide_True; [done | by right].
      * rewrite decide_False; [done|]. rewrite not_elem_of_cons. by split.
Qed.

(** C6: whatever the neighbour relation, cycles included, when the
    starting names and the names [collectFn] answers for the nodes of the
    graph all have a node, the traversal ends and returns a set, and
    [collectFn] has been called once for each name of that set and for no
    other name. The loop is left within the iterations allowed, and allowing
    more changes nothing. *)
Theorem collectPackageNames_expands_once graph start collectFn :
  (∀ name, name ∈ start → is_Some (jsmap_get graph name)) →
  (∀ name node depName,
     jsmap_get graph name = Some node →
     depName ∈ collected_names (collectFn node) →
     is_Some (jsmap_get graph depName)) →
  ∃ result calls,
    collectPackageNames graph start collectFn = Some (Ok result)
    ∧ collectFn_calls graph start collectFn = Some calls
    ∧ (∀ name, invocations name calls = if decide (name ∈ result) then 1 else 0)
    ∧ (∀ fuel, search_fuel graph collectFn start ≤ fuel →
               search_loop fuel graph collectFn (search_start start)
               = Some (Ok result, calls)).
Proof.
  intros Hstart Hfn.
  assert (∀ name, encountered graph collectFn start name →
                  is_Some (jsmap_get graph name)) as Hpres.
  { induction 1; eauto. }
  unfold collectPackageNames, collectFn_calls.
  destruct (collectPackageNames_run_post graph collectFn start)
    as ([r cs] & Hrun & Hnd & Hpost).
  rewrite Hrun. simpl in *. destruct r as [result|message].
  - exists result, cs. split_and!; [done | done | |].
    + intros name. rewrite (invocations_NoDup _ _ Hnd).
      destruct Hpost as (Hcs & _). destruct (decide (name ∈ cs)) as [Hin|Hout].
      * rewrite decide_True; [done | by apply Hcs].
      * rewrite decide_False; [done | by rewrite <-Hcs].
    + intros fuel Hfuel. by eapply search_loop_more_fuel.
  - destruct Hpost as (name & _ & Hname & Hnone).
    apply Hpres in Hname as [node Hnode]. congruence.
Qed.


Lemma collectPackageNames_same_elements graph collectFn start1 start2 result :
  (∀ name, name ∈ start1 ↔ name ∈ start2) →
  collectPackageNames graph start1 collectFn = Some (Ok result) ↔
  collectPackageNames graph start2 collectFn = Some (Ok result).
Proof.
  intros Hsame. rewrite !collectPackageNames_Ok_iff.
  assert (∀ name, encountered graph collectFn start1 name ↔
                  encountered graph collectFn start2 name) as Henc.
  { intros name. split; apply encountered_mono; intros ?; apply Hsame. }
  split; intros [Hpres Hresult]; split; intros name.
  - rewrite <-Henc. apply Hpres.
  - by rewrite <-Henc.
  - rewrite Henc. apply Hpres.
  - by rewrite Henc.
Qed.

(** C8: two lists of starting names with the same underlying set of names,
    whatever the multiplicities, give the same returned set; in particular
    a list gives the same set as the list without its duplicates. *)
Theorem collectPackageNames_start_set graph collectFn start1 start2 :
  list_to_set (C := gset string) start1 = list_to_set start2 →
  (∀ result,
     collectPackageNames graph start1 collectFn = Some (Ok result) ↔
     collectPackageNames graph start2 collectFn = Some (Ok result))
  ∧ (∀ result,
       collectPackageNames graph start1 collectFn = Some (Ok result) ↔
       collectPackageNames graph (remove_dups start1) collectFn = Some (Ok result)).
Proof.
  intros Hsame. split; intros result.
  - apply collectPackageNames_same_elements. intros name.
    by rewrite <-!(elem_of_list_to_set (C := gset string)), Hsame.
  - apply collectPackageNames_same_elements. intros name.
    by rewrite elem_of_remove_dups.
Qed.

(** ** The order of strings and prefixes *)

Lemma str_lt_false a b : str_lt a b = false ↔ String.le b a.
Proof.
  unfold str_lt, String.le, String.ltb, String.leb.
  rewrite (String.compare_antisym a b).
  destruct (String.compare b a); simpl; split; done.
Qed.

Lemma str_lt_true a b : str_lt a b = true ↔ ¬ String.le b a.
Proof. rewrite <-str_lt_false. destruct (str_lt a b); split; done. Qed.

Lemma str_lt_le a b : str_lt a b = true → String.le a b.
Proof.
  rewrite str_lt_true. intros Hnle. by destruct (total String.le a b).
Qed.

Lemma str_lt_ne a b : str_lt a b = true → a ≠ b.
Proof. rewrite str_lt_true. intros Hnle ->. by apply Hnle. Qed.

Lemma str_le_ne_lt a b : String.le a b → a ≠ b → str_lt a b = true.
Proof.
  intros Hle Hne. apply str_lt_true. intros Hge.
  by apply Hne, (anti_symm String.le).
Qed.

Lemma ascii_compare_refl a : Ascii.compare a a = Eq.
Proof. unfold Ascii.compare. apply N.compare_refl. Qed.

Lemma startsWith_le s p : startsWith s p = true → String.le p s.
Proof.
  unfold startsWith, String.le, String.leb. revert s.
  induction p as [|a p IH]; intros [|b s]; simpl; try done.
  destruct (ascii_dec a b) as [->|]; [|done].
  rewrite ascii_compare_refl. apply IH.
Qed.

(** The strings with a given prefix are an interval of the order. *)
Lemma startsWith_between p f g :
  String.le p f → String.le f g → startsWith g p = true → startsWith f p = true.
Proof.
  unfold startsWith, String.le, String.leb. revert f g.
  induction p as [|a p IH]; intros [|b f] [|c g]; simpl; try done.
  destruct (ascii_dec a c) as [<-|]; [|done].
  rewrite (Ascii.compare_antisym b a).
  destruct (Ascii.compare a b) eqn:Hab; simpl; [|done..].
  apply Ascii.compare_eq_iff in Hab as <-.
  destruct (ascii_dec a a); [|done]. apply IH.
Qed.

Lemma startsWith_comparable f p q :
  startsWith f p = true → startsWith f q = true →
  startsWith p q = true ∨ startsWith q p = true.
Proof.
  unfold startsWith. revert p q.
  induction f as [|c f IH]; intros [|a p] [|b q]; simpl; auto; try done.
  destruct (ascii_dec a c) as [Hac|]; [|done].
  destruct (ascii_dec b c) as [Hbc|]; [|done]. subst a b.
  destruct (ascii_dec c c); [|done]. apply IH.
Qed.

Lemma startsWith_trans f p q :
  startsWith f p = true → startsWith p q = true → startsWith f q = true.
Proof.
  unfold startsWith. revert p q.
  induction f as [|c f IH]; intros [|a p] [|b q]; simpl; try done.
  destruct (ascii_dec a c) as [Hac|]; [|done]. subst a.
  destruct (ascii_dec b c) as [Hbc|]; [|done]. apply IH.
Qed.

(** ** [new Map(entries)] *)

Section jsmap_of_entries_facts.
Context {V : Type}.
Implicit Types (m : jsmap V) (entries : list (string * V)).

Lemma jsmap_set_all_keys m entries key :
  key ∈ jsmap_keys (foldl (λ m e, jsmap_set m e.1 e.2) m entries) ↔
  key ∈ jsmap_keys m ∨ key ∈ entries.*1.
Proof.
  revert m. induction entries as [|[k v] entries IH]; intros m; csimpl.
  - rewrite elem_of_nil. tauto.
  - rewrite IH, jsmap_keys_set, elem_of_cons.
    destruct (decide (k ∈ jsmap_keys m)) as [Hin|Hout].
    + split; [tauto|]. intros [?|[->|?]]; auto.
    + rewrite elem_of_app, list_elem_of_singleton. tauto.
Qed.

Lemma jsmap_set_all_NoDup m entries :
  NoDup (jsmap_keys m) →
  NoDup (jsmap_keys (foldl (λ m e, jsmap_set m e.1 e.2) m entries)).
Proof.
  revert m. induction entries as [|[k v] entries IH]; intros m Hnd; csimpl; [done|].
  apply IH. rewrite jsmap_keys_set. case_decide as Hk; [done|].
  apply NoDup_app. split_and!; [done | | apply NoDup_singleton].
  intros key Hkey ->%list_elem_of_singleton. done.
Qed.

Lemma jsmap_set_all_get m entries key value :
  jsmap_get (foldl (λ m e, jsmap_set m e.1 e.2) m entries) key = Some value →
  (key, value) ∈ entries ∨ jsmap_get m key = Some value.
Proof.
  revert m. induction entries as [|[k v] entries IH]; intros m; csimpl; [auto|].
  intros [Hin|Hget]%IH.
  - left. by right.
  - rewrite jsmap_get_set in Hget. case_decide; [|auto].
    simplify_eq. left. left.
Qed.

Lemma jsmap_of_entries_keys entries key :
  key ∈ jsmap_keys (jsmap_of_entries entries) ↔ key ∈ entries.*1.
Proof.
  unfold jsmap_of_entries. rewrite jsmap_set_all_keys.
  unfold jsmap_keys. csimpl. rewrite elem_of_nil. tauto.
Qed.

Lemma jsmap_of_entries_NoDup entries :
  NoDup (jsmap_keys (jsmap_of_entries entries)).
Proof. apply jsmap_set_all_NoDup. constructor. Qed.

Lemma jsmap_of_entries_get entries key value :
  jsmap_get (jsmap_of_entries entries) key = Some value → (key, value) ∈ entries.
Proof. by intros [?|?]%jsmap_set_all_get. Qed.
End jsmap_of_entries_facts.

(** ** The two inner loops of change detection *)

Lemma advance_spec p rest searchIndex :
  ∃ n, advance p rest searchIndex = searchIndex + n
       ∧ (∀ k file, k < n → rest !! k = Some file → p file = true)
       ∧ (∀ file, rest !! n = Some file → p file = false).
Proof.
  revert searchIndex. induction rest as [|file0 rest IH]; intros i; simpl.
  - exists 0. split_and!; [lia | intros; lia | done].
  - destruct (p file0) eqn:Hp.
    + destruct (IH (S i)) as (n & -> & Hbefore & Hat).
      exists (S n). split_and!; [lia | | done].
      intros [|k] file Hk; simpl; [by intros [= <-] | apply Hbefore; lia].
    + exists 0. split_and!; [lia | intros; lia | by intros ? [= <-]].
Qed.

Lemma skip_while_spec p changedFiles searchIndex :
  searchIndex ≤ skip_while p changedFiles searchIndex
  ∧ (∀ j file,
       searchIndex ≤ j → j < skip_while p changedFiles searchIndex →
       changedFiles !! j = Some file → p file = true)
  ∧ (∀ file,
       changedFiles !! skip_while p changedFiles searchIndex = Some file →
       p file = false).
Proof.
  unfold skip_while.
  destruct (advance_spec p (drop searchIndex changedFiles) searchIndex)
    as (n & -> & Hbefore & Hat).
  split_and!; [lia | |].
  - intros j file Hge Hlt Hj. apply (Hbefore (j - searchIndex)); [lia|].
    rewrite lookup_drop. by replace (searchIndex + (j - searchIndex)) with j by lia.
  - intros file Hfile. apply Hat. by rewrite lookup_drop.
Qed.

(** ** One package directory against the sorted files *)

Section scan_facts.
Variable changedFiles : list string.
Variable dirMap : jsmap PackageGraphNode.
Hypothesis changedFiles_sorted : StronglySorted String.le changedFiles.

Lemma changedFiles_ordered j k file_j file_k :
  j ≤ k → changedFiles !! j = Some file_j → changedFiles !! k = Some file_k →
  String.le file_j file_k.
Proof.
  intros Hjk Hj Hk. destruct (decide (j = k)) as [->|Hne].
  - simplify_eq. reflexivity.
  - rewrite <-(take_drop_middle _ _ _ Hj) in changedFiles_sorted, Hk.
    apply StronglySorted_app in changedFiles_sorted as (_ & _ & Hs).
    apply StronglySorted_cons in Hs as [Hall _].
    rewrite Forall_forall in Hall. apply Hall.
    rewrite lookup_app_r in Hk by (rewrite length_take; lia).
    assert (length (take j changedFiles) = j) as Hlen.
    { rewrite length_take. apply lookup_lt_Some in Hj. lia. }
    rewrite Hlen in Hk. destruct (k - j) as [|n] eqn:Hkj; [lia|].
    simpl in Hk. by eapply list_elem_of_lookup_2.
Qed.

(** Past a file that is not below [packageDir] and does not start with it,
    no file starts with it. *)
Lemma no_match_from k file packageDir :
  changedFiles !! k = Some file →
  String.le packageDir file →
  startsWith file packageDir = false →
  ∀ j file_j, k ≤ j → changedFiles !! j = Some file_j →
              startsWith file_j packageDir = false.
Proof.
  intros Hk Hle Hno j file_j Hkj Hj.
  destruct (startsWith file_j packageDir) eqn:Hs; [|done].
  rewrite <-Hno. symmetry. eapply startsWith_between; [done | | done].
  by eapply changedFiles_ordered.
Qed.

(** What one round of the outer loop does: [hit] tells whether the package
    was pushed. *)
Lemma scan_packageDir_spec searchIndex result packageDir :
  ∃ searchIndex' (hit : bool),
    scan_packageDir changedFiles dirMap (searchIndex, result) packageDir =
      (searchIndex', if hit then result ++ getl dirMap packageDir else result)
    ∧ searchIndex ≤ searchIndex'
    ∧ (hit = true ↔
       ∃ j file, searchIndex ≤ j ∧ changedFiles !! j = Some file
                 ∧ startsWith file packageDir = true)
    ∧ (∀ j file, searchIndex' ≤ j → changedFiles !! j = Some file →
                 startsWith file packageDir = false)
    ∧ (∀ j file, searchIndex ≤ j → j < searchIndex' →
                 changedFiles !! j = Some file →
                 str_lt file packageDir = true
                 ∨ (hit = true ∧ startsWith file packageDir = true)).
Proof.
  unfold scan_packageDir.
  destruct (skip_while_spec (λ file, str_lt file packageDir) changedFiles searchIndex)
    as (Hle1 & Hbelow & Hstop).
  set (i1 := skip_while (λ file, str_lt file packageDir) changedFiles searchIndex) in *.
  assert (∀ j file, searchIndex ≤ j → j < i1 → changedFiles !! j = Some file →
                    startsWith file packageDir = false) as Hbelow_no.
  { intros j file Hj1 Hj2 Hj. specialize (Hbelow j file Hj1 Hj2 Hj). simpl in Hbelow.
    destruct (startsWith file packageDir) eqn:Hs; [|done].
    apply startsWith_le in Hs. by apply str_lt_true in Hbelow. }
  destruct (changedFiles !! i1) as [file1|] eqn:Hfile1.
  - specialize (Hstop file1 eq_refl). simpl in Hstop. apply str_lt_false in Hstop.
    destruct (startsWith file1 packageDir) eqn:Hs1.
    + destruct (skip_while_spec (λ file, startsWith file packageDir) changedFiles (S i1))
        as (Hle2 & Hsame & Hstop2).
      set (i2 := skip_while (λ file, startsWith file packageDir) changedFiles (S i1)) in *.
      exists i2, true. split_and!; [done | lia | | |].
      * split; [|done]. intros _. exists i1, file1. done.
      * intros j file Hj2 Hj. destruct (changedFiles !! i2) as [file2|] eqn:Hfile2.
        -- eapply (no_match_from i2 file2); eauto.
           transitivity file1; [done|].
           eapply (changedFiles_ordered i1 i2); [lia | done..].
        -- apply lookup_ge_None in Hfile2. apply lookup_lt_Some in Hj. lia.
      * intros j file Hj1 Hj2 Hj. destruct (decide (j < i1)) as [Hlt|Hge].
        -- left. by apply (Hbelow j).
        -- right. split; [done|]. destruct (decide (j = i1)) as [->|Hne].
           ++ by simplify_eq.
           ++ apply (Hsame j); [lia | done..].
    + exists i1, false. split_and!; [done | done | | |].
      * split; [done|]. intros (j & file & Hj1 & Hj & Hs).
        destruct (decide (j < i1)) as [Hlt|Hge].
        -- rewrite (Hbelow_no j file) in Hs; done.
        -- rewrite (no_match_from i1 file1 packageDir Hfile1 Hstop Hs1 j file) in Hs;
             [done | lia | done].
      * by apply (no_match_from i1 file1).
      * intros j file Hj1 Hj2 Hj. left. by apply (Hbelow j).
  - exists i1, false. apply lookup_ge_None in Hfile1. split_and!; [done | done | | |].
    + split; [done|]. intros (j & file & Hj1 & Hj & Hs).
      destruct (decide (j < i1)) as [Hlt|Hge].
      * rewrite (Hbelow_no j file) in Hs; done.
      * apply lookup_lt_Some in Hj. lia.
    + intros j file Hj1 Hj. apply lookup_lt_Some in Hj. lia.
    + intros j file Hj1 Hj2 Hj. left. by apply (Hbelow j).
Qed.
End scan_facts.

(** ** The outer loop of change detection *)

Section scan_loop.
Variable changedFiles : list string.
Variable dirMap : jsmap PackageGraphNode.
Variable packageDirs : list string.
Hypothesis changedFiles_sorted : StronglySorted String.le changedFiles.
Hypothesis packageDirs_sorted : StronglySorted String.le packageDirs.
Hypothesis packageDirs_NoDup : NoDup packageDirs.

Lemma scan_inv_start : scan_inv changedFiles packageDirs [] [] 0.
Proof.
  split.
  - intros; lia.
  - by intros ? ? ? ?%elem_of_nil.
  - done.
  - by intros ? ?%elem_of_nil.
Qed.

Lemma scan_inv_step done hits searchIndex result packageDir rest :
  packageDirs = done ++ packageDir :: rest →
  scan_inv changedFiles packageDirs done hits searchIndex →
  ∃ searchIndex' hits',
    scan_packageDir changedFiles dirMap (searchIndex, result ++ hits ≫= getl dirMap)
      packageDir = (searchIndex', result ++ hits' ≫= getl dirMap)
    ∧ scan_inv changedFiles packageDirs (done ++ [packageDir]) hits' searchIndex'.
Proof.
  intros Hdirs [Hpassed Hahead Hsub Hhits].
  assert (∀ d, d ∈ done → String.le d packageDir ∧ d ≠ packageDir) as Hbefore.
  { intros d Hd. split.
    - rewrite Hdirs in packageDirs_sorted.
      apply StronglySorted_app in packageDirs_sorted as (Hlt & _). apply Hlt; [done | left].
    - rewrite Hdirs in packageDirs_NoDup.
      apply NoDup_app in packageDirs_NoDup as (_ & Hnin & _).
      intros ->. apply (Hnin _ Hd). left. }
  assert (∀ d, d ∈ rest → String.le packageDir d) as Hafter.
  { intros d Hd. rewrite Hdirs in packageDirs_sorted.
    apply StronglySorted_app in packageDirs_sorted as (_ & _ & Hs).
    apply StronglySorted_cons in Hs as [Hall _]. rewrite Forall_forall in Hall. auto. }
  destruct (scan_packageDir_spec changedFiles dirMap changedFiles_sorted
              searchIndex (result ++ hits ≫= getl dirMap) packageDir)
    as (searchIndex' & hit & Hscan & Hle & Hhit & Hnone & Hbetween).
  assert (hit = true ↔
          owns_file changedFiles packageDir ∧ outermost packageDirs packageDir) as Hchar.
  { rewrite Hhit. split.
    - intros (j & file & Hj1 & Hj & Hs). split.
      + exists file. split; [by eapply list_elem_of_lookup_2 | done].
      + intros other Hother Hpre. rewrite Hdirs in Hother.
        apply elem_of_app in Hother as [Hd|[->|Hr]%elem_of_cons]; [|done|].
        * pose proof (Hahead other j file Hd Hj1 Hj) as Hno.
          by rewrite (startsWith_trans file packageDir other Hs Hpre) in Hno.
        * apply (anti_symm String.le); [by apply startsWith_le | by apply Hafter].
    - intros [(file & [j Hj]%list_elem_of_lookup_1 & Hs) Hout].
      destruct (decide (searchIndex ≤ j)) as [Hge|Hlt]; [by exists j, file|].
      exfalso. destruct (Hpassed j file ltac:(lia) Hj) as [(d & Hd & Hlt')|(d & Hd & Hs')].
      + apply str_lt_true in Hlt'. apply Hlt'. transitivity packageDir.
        * by apply Hbefore.
        * by apply startsWith_le.
      + assert (d ∈ done) as Hdone by (by eapply sublist_subseteq).
        destruct (Hbefore d Hdone) as [Hdle Hdne].
        destruct (startsWith_comparable file packageDir d Hs Hs') as [Hp|Hp].
        * apply Hdne, Hout; [|done]. rewrite Hdirs. apply elem_of_app. by left.
        * apply Hdne. apply (anti_symm String.le); [done | by apply startsWith_le]. }
  exists searchIndex', (if hit then hits ++ [packageDir] else hits). split.
  { rewrite Hscan. f_equal. destruct hit; [|done].
    rewrite bind_app, <-app_assoc. csimpl. by rewrite app_nil_r. }
  split.
  - intros j file Hj1 Hj. destruct (decide (j < searchIndex)) as [Hlt|Hge].
    + destruct (Hpassed j file Hlt Hj) as [(d & Hd & ?)|(d & Hd & ?)].
      * left. exists d. rewrite elem_of_app. auto.
      * right. exists d. split; [|done]. destruct hit; [|done].
        rewrite elem_of_app. auto.
    + destruct (Hbetween j file ltac:(lia) Hj1 Hj) as [?|[-> ?]].
      * left. exists packageDir. rewrite elem_of_app, list_elem_of_singleton. auto.
      * right. exists packageDir. rewrite elem_of_app, list_elem_of_singleton. auto.
  - intros d j file [Hd| ->%list_elem_of_singleton]%elem_of_app Hj1 Hj.
    + apply (Hahead d j file); [done | lia | done].
    + by apply (Hnone j).
  - destruct hit.
    + apply sublist_app; [done | reflexivity].
    + by apply sublist_inserts_r.
  - intros d [Hd| ->%list_elem_of_singleton]%elem_of_app.
    + rewrite <-(Hhits d Hd). destruct hit; [|done].
      rewrite elem_of_app, list_elem_of_singleton.
      destruct (Hbefore d Hd) as [_ Hne]. tauto.
    + rewrite <-Hchar. destruct hit.
      * rewrite elem_of_app, list_elem_of_singleton. tauto.
      * split; [|done]. intros Hin. apply (sublist_subseteq _ _ Hsub) in Hin.
        by destruct (Hbefore _ Hin).
Qed.

Lemma scan_inv_loop rest done hits searchIndex result :
  packageDirs = done ++ rest →
  scan_inv changedFiles packageDirs done hits searchIndex →
  ∃ searchIndex' hits',
    foldl (scan_packageDir changedFiles dirMap)
      (searchIndex, result ++ hits ≫= getl dirMap) rest
    = (searchIndex', result ++ hits' ≫= getl dirMap)
    ∧ scan_inv changedFiles packageDirs packageDirs hits' searchIndex'.
Proof.
  revert done hits searchIndex.
  induction rest as [|packageDir rest IH]; intros done hits searchIndex Hdirs Hinv.
  - rewrite app_nil_r in Hdirs. subst done. by exists searchIndex, hits.
  - destruct (scan_inv_step done hits searchIndex result packageDir rest Hdirs Hinv)
      as (i1 & hits1 & Hstep & Hinv1).
    cbn [foldl]. rewrite Hstep.
    apply (IH (done ++ [packageDir])); [|done]. by rewrite <-app_assoc.
Qed.
End scan_loop.

(** ** Change detection as a whole *)

Lemma sort_sorted l : StronglySorted String.le (sort l).
Proof. apply StronglySorted_merge_sort; apply _. Qed.

Lemma sort_Permutation l : sort l ≡ₚ l.
Proof. apply merge_sort_Permutation. Qed.

Lemma elem_of_sort l x : x ∈ sort l ↔ x ∈ l.
Proof. by rewrite sort_Permutation. Qed.

Lemma owns_file_sort changedFiles packageDir :
  owns_file (sort changedFiles) packageDir ↔ owns_file changedFiles packageDir.
Proof. unfold owns_file. by setoid_rewrite elem_of_sort. Qed.

Lemma outermost_sort packageDirs packageDir :
  outermost (sort packageDirs) packageDir ↔ outermost packageDirs packageDir.
Proof. unfold outermost. by setoid_rewrite elem_of_sort. Qed.

(** Two sublists of a duplicate-free list with the same elements are the
    same list. *)
Lemma sublist_unique (k l1 l2 : list string) :
  NoDup k → l1 `sublist_of` k → l2 `sublist_of` k →
  (∀ x, x ∈ l1 ↔ x ∈ l2) → l1 = l2.
Proof.
  intros Hnd. revert l1 l2.
  induction Hnd as [|x k Hx Hnd IH]; intros l1 l2 H1 H2 Hsame.
  - apply sublist_nil_r in H1, H2. by subst.
  - apply sublist_cons_r in H1 as [H1|(l1' & -> & H1)];
      apply sublist_cons_r in H2 as [H2|(l2' & -> & H2)].
    + by apply IH.
    + exfalso. apply Hx. eapply sublist_subseteq; [exact H1|].
      apply Hsame. left.
    + exfalso. apply Hx. eapply sublist_subseteq; [exact H2|].
      apply Hsame. left.
    + f_equal. apply IH; [done..|]. intros y. split; intros Hy.
      * assert (y ∈ x :: l2') as [->|?]%elem_of_cons by (apply Hsame; by right);
          [|done].
        exfalso. apply Hx. eapply sublist_subseteq; [exact H1 | done].
      * assert (y ∈ x :: l1') as [->|?]%elem_of_cons by (apply Hsame; by right);
          [|done].
        exfalso. apply Hx. eapply sublist_subseteq; [exact H2 | done].
Qed.

Section listChangedPackages_facts.
Variable relativeDir : string → string.
Variable graph : PackageGraph.

Lemma dirMap_of_keys packageDir :
  packageDir ∈ jsmap_keys (dirMap_of relativeDir graph) ↔
  ∃ pkg, pkg ∈ jsmap_values graph ∧ packageDir_of relativeDir pkg = packageDir.
Proof.
  unfold dirMap_of. rewrite jsmap_of_entries_keys, <-list_fmap_compose.
  rewrite list_elem_of_fmap.
  split; intros (pkg & ? & ?); exists pkg; simpl in *; auto.
Qed.

Lemma dirMap_of_get packageDir pkg :
  jsmap_get (dirMap_of relativeDir graph) packageDir = Some pkg →
  pkg ∈ jsmap_values graph ∧ packageDir_of relativeDir pkg = packageDir.
Proof.
  intros (pkg' & [= -> ->] & Hin)%jsmap_of_entries_get%list_elem_of_fmap. done.
Qed.

(** The directories pushed by the loop: those of the sorted directories
    that own a changed file and have no other package directory as a
    prefix. *)
Lemma listChangedPackages_hits changedFiles :
  ∃ hits,
    listChangedPackages relativeDir graph changedFiles =
      hits ≫= getl (dirMap_of relativeDir graph)
    ∧ hits `sublist_of` sort (jsmap_keys (dirMap_of relativeDir graph))
    ∧ ∀ packageDir,
        packageDir ∈ hits ↔
        packageDir ∈ jsmap_keys (dirMap_of relativeDir graph)
        ∧ owns_file changedFiles packageDir
        ∧ outermost (jsmap_keys (dirMap_of relativeDir graph)) packageDir.
Proof.
  unfold listChangedPackages.
  set (dirMap := dirMap_of relativeDir graph).
  assert (NoDup (sort (jsmap_keys dirMap))) as Hnd.
  { rewrite sort_Permutation. apply jsmap_of_entries_NoDup. }
  destruct (scan_inv_loop (sort changedFiles) dirMap (sort (jsmap_keys dirMap))
              (sort_sorted _) (sort_sorted _) Hnd
              (sort (jsmap_keys dirMap)) [] [] 0 [] eq_refl
              (scan_inv_start _ _))
    as (i & hits & Hloop & [_ _ Hsub Hhits]).
  exists hits. simpl in Hloop. rewrite Hloop. split_and!; [done | done |].
  intros packageDir. split.
  - intros Hin. assert (packageDir ∈ sort (jsmap_keys dirMap)) as Hkey
      by (by eapply sublist_subseteq).
    apply (Hhits _ Hkey) in Hin as [Hown Hout].
    split_and!; [by apply elem_of_sort | by apply owns_file_sort
                 | by apply outermost_sort].
  - intros (Hkey & Hown & Hout). apply Hhits.
    + by apply elem_of_sort.
    + split; [by apply owns_file_sort | by apply outermost_sort].
Qed.

(** A package is listed exactly when it is the package registered for its
    directory, a changed file lies under that directory, and no other
    package directory is a prefix of it. *)
Lemma listChangedPackages_elem_of changedFiles pkg :
  pkg ∈ listChangedPackages relativeDir graph changedFiles ↔
  jsmap_get (dirMap_of relativeDir graph) (packageDir_of relativeDir pkg) = Some pkg
  ∧ owns_file changedFiles (packageDir_of relativeDir pkg)
  ∧ outermost (jsmap_keys (dirMap_of relativeDir graph)) (packageDir_of relativeDir pkg).
Proof.
  destruct (listChangedPackages_hits changedFiles) as (hits & -> & _ & Hhits).
  rewrite list_elem_of_bind. unfold getl. split.
  - intros (packageDir & Hpkg & Hin).
    destruct (jsmap_get _ packageDir) as [pkg'|] eqn:Hget; simpl in Hpkg;
      [|by apply elem_of_nil in Hpkg].
    apply list_elem_of_singleton in Hpkg as ->.
    destruct (dirMap_of_get _ _ Hget) as [_ <-] in Hin, Hget |- *.
    apply Hhits in Hin as (_ & ? & ?). done.
  - intros (Hget & Hown & Hout). exists (packageDir_of relativeDir pkg).
    rewrite Hget. split; [simpl; left|]. apply Hhits. split_and!; [|done..].
    apply jsmap_get_is_Some. by rewrite Hget.
Qed.

(** The directories of the listed packages are the pushed directories. *)
Lemma listChangedPackages_dirs hits :
  (∀ packageDir, packageDir ∈ hits →
     packageDir ∈ jsmap_keys (dirMap_of relativeDir graph)) →
  packageDir_of relativeDir <$> (hits ≫= getl (dirMap_of relativeDir graph)) = hits.
Proof.
  induction hits as [|packageDir hits IH]; intros Hkeys; [done|].
  rewrite bind_cons, fmap_app, IH by (intros; apply Hkeys; by right).
  assert (packageDir ∈ jsmap_keys (dirMap_of relativeDir graph)) as Hkey
    by (apply Hkeys; left).
  apply jsmap_get_is_Some in Hkey as [pkg Hget]. unfold getl. rewrite Hget.
  apply dirMap_of_get in Hget as [_ <-]. done.
Qed.

(** The answer depends on the changed files only through the directories
    that own one of them. *)
Lemma listChangedPackages_owned changedFiles1 changedFiles2 :
  (∀ packageDir,
     packageDir ∈ jsmap_keys (dirMap_of relativeDir graph) →
     owns_file changedFiles1 packageDir ↔ owns_file changedFiles2 packageDir) →
  listChangedPackages relativeDir graph changedFiles1 =
  listChangedPackages relativeDir graph changedFiles2.
Proof.
  intros Hown.
  destruct (listChangedPackages_hits changedFiles1) as (hits1 & -> & Hsub1 & Hhits1).
  destruct (listChangedPackages_hits changedFiles2) as (hits2 & -> & Hsub2 & Hhits2).
  f_equal. eapply sublist_unique; [|exact Hsub1|exact Hsub2|].
  - rewrite sort_Permutation. apply jsmap_of_entries_NoDup.
  - intros packageDir. rewrite Hhits1, Hhits2.
    split; intros (Hkey & ? & ?); (split_and!; [done | by apply (Hown _ Hkey) | done]).
Qed.
End listChangedPackages_facts.

(** ** Graphs of two packages *)

Lemma dirMap_of_two relativeDir graph pkg1 pkg2 :
  jsmap_values graph = [pkg1; pkg2] →
  packageDir_of relativeDir pkg1 ≠ packageDir_of relativeDir pkg2 →
  dirMap_of relativeDir graph =
    [(packageDir_of relativeDir pkg1, pkg1); (packageDir_of relativeDir pkg2, pkg2)].
Proof.
  intros Hvalues Hne. unfold dirMap_of, jsmap_of_entries. rewrite Hvalues.
  simpl. by rewrite decide_False.
Qed.

Lemma two_values (graph : PackageGraph) pkg1 pkg2 :
  jsmap_values graph ≡ₚ [pkg1; pkg2] →
  jsmap_values graph = [pkg1; pkg2] ∨ jsmap_values graph = [pkg2; pkg1].
Proof. intros Hperm. symmetry in Hperm. by apply Permutation_length_2_inv in Hperm. Qed.


Example cyclic_graph_built : fromPackages cyclic_packages = Ok cyclic_graph.
Proof. reflexivity. Qed.

Example nested_graph_built : fromPackages nested_packages = Ok nested_graph.
Proof. reflexivity. Qed.

Example sibling_graph_built : fromPackages sibling_packages = Ok sibling_graph.
Proof. reflexivity. Qed.

Example cyclic_graph_traversal :
  collectPackageNames cyclic_graph ["a"] all_dependencies
  = Some (Ok (list_to_set ["a"; "b"]))
  ∧ collectFn_calls cyclic_graph ["a"] all_dependencies = Some ["a"; "b"].
Proof. split; vm_compute; reflexivity. Qed.

(** [collectFn] answers a missing name before a present one: the present
    one is still expanded, and the missing one is reported when popped. *)
Example lazy_validation :
  let collectFn := λ node : PackageGraphNode,
    if decide (node_name node = "a") then Some ["missing"; "b"] else None in
  collectPackageNames cyclic_graph ["a"] collectFn
  = Some (Throw "Package 'missing' not found")
  ∧ collectFn_calls cyclic_graph ["a"] collectFn = Some ["a"; "b"].
Proof. split; vm_compute; reflexivity. Qed.

(** ** Change detection on nested and sibling directories *)



Lemma StronglySorted_sublist (l k : list string) :
  l `sublist_of` k → StronglySorted String.le k → StronglySorted String.le l.
Proof.
  induction 1 as [|x l k Hsub IH|x l k Hsub IH]; intros Hk.
  - constructor.
  - apply StronglySorted_cons in Hk as [Hall Hk]. apply StronglySorted_cons.
    split; [|auto]. rewrite Forall_forall in *. intros y Hy. apply Hall.
    eapply sublist_subseteq; [exact Hsub | done].
  - apply StronglySorted_cons in Hk as [_ Hk]. auto.
Qed.

(** A file of a sibling directory, whose name goes on where the name of
    [dir] ends, does not start with [dir/]. *)
Lemma startsWith_sibling dir c rest :
  c ≠ "/"%char → startsWith (dir +:+ String c rest) (dir +:+ "/") = false.
Proof.
  intros Hc. unfold startsWith. induction dir as [|a dir IH].
  - change (String.prefix (String "/" "") (String c rest) = false).
    cbn [String.prefix]. destruct (ascii_dec "/" c); [congruence | done].
  - change (String.prefix (String a (dir +:+ "/")) (String a (dir +:+ String c rest))
            = false).
    cbn [String.prefix]. destruct (ascii_dec a a); [done | congruence].
Qed.

(** C9: for packages [a] at [pkg-a/] and [b] at [pkg-b/], in either
    insertion order, the changed files [pkg-a/index.ts], [pkg-b/readme.md]
    and [other/file.txt] give the list of [a] then [b]. For every graph the
    directories of the listed packages follow the sorted package
    directories, and a changed file under no package directory changes
    nothing in the answer. *)
Theorem listChangedPackages_sorted_order :
  (∀ relativeDir graph a b,
     jsmap_values graph ≡ₚ [a; b] →
     relativeDir (node_dir a) = "pkg-a" →
     relativeDir (node_dir b) = "pkg-b" →
     listChangedPackages relativeDir graph
       ["pkg-a/index.ts"; "pkg-b/readme.md"; "other/file.txt"] = [a; b])
  ∧ (∀ relativeDir graph changedFiles,
       packageDir_of relativeDir <$> listChangedPackages relativeDir graph changedFiles
         `sublist_of` sort (jsmap_keys (dirMap_of relativeDir graph))
       ∧ StronglySorted String.le
           (packageDir_of relativeDir <$>
              listChangedPackages relativeDir graph changedFiles))
  ∧ (∀ relativeDir graph changedFiles file,
       (∀ pkg, pkg ∈ jsmap_values graph →
               startsWith file (packageDir_of relativeDir pkg) = false) →
       listChangedPackages relativeDir graph (file :: changedFiles) =
       listChangedPackages relativeDir graph changedFiles).
Proof.
  split_and!.
  - intros relativeDir graph a b Hvalues Ha Hb.
    assert (packageDir_of relativeDir a = "pkg-a/") as Hda
      by (unfold packageDir_of; by rewrite Ha).
    assert (packageDir_of relativeDir b = "pkg-b/") as Hdb
      by (unfold packageDir_of; by rewrite Hb).
    unfold listChangedPackages.
    destruct (two_values _ _ _ Hvalues) as [Hv|Hv];
      rewrite (dirMap_of_two _ _ _ _ Hv) by (rewrite Hda, Hdb; done);
      rewrite Hda, Hdb; vm_compute; reflexivity.
  - intros relativeDir graph changedFiles.
    destruct (listChangedPackages_hits relativeDir graph changedFiles)
      as (hits & -> & Hsub & Hhits).
    rewrite listChangedPackages_dirs by (intros d Hd; by apply Hhits in Hd as [? _]).
    split; [done|]. eapply StronglySorted_sublist; [done | apply sort_sorted].
  - intros relativeDir graph changedFiles file Hnone.
    apply listChangedPackages_owned. intros packageDir Hkey. unfold owns_file.
    apply dirMap_of_keys in Hkey as (pkg & Hpkg & <-).
    split; intros (file' & Hin & Hs).
    + apply elem_of_cons in Hin as [->|Hin]; [|eauto].
      by rewrite (Hnone pkg Hpkg) in Hs.
    + exists file'. split; [by right | done].
Qed.

(** C10: for siblings [a] at [pkg-a/] and [ab] at [pkg-ab/], in either
    insertion order, a single changed file under [pkg-ab/] gives the list
    of [ab] alone. For every graph, a package is not listed when every
    changed file lies in a sibling directory whose name extends the name
    of the package's directory: the separator appended to the directory
    does not match the next character of such a file. *)
Theorem listChangedPackages_sibling_prefix :
  (∀ relativeDir graph a ab suffix,
     jsmap_values graph ≡ₚ [a; ab] →
     relativeDir (node_dir a) = "pkg-a" →
     relativeDir (node_dir ab) = "pkg-ab" →
     listChangedPackages relativeDir graph ["pkg-ab/" +:+ suffix] = [ab])
  ∧ (∀ relativeDir graph changedFiles pkg,
       (∀ file, file ∈ changedFiles →
          ∃ c rest, c ≠ "/"%char
                    ∧ file = relativeDir (node_dir pkg) +:+ String c rest) →
       pkg ∉ listChangedPackages relativeDir graph changedFiles).
Proof.
  split.
  - intros relativeDir graph a ab suffix Hvalues Ha Hab.
    assert (packageDir_of relativeDir a = "pkg-a/") as Hda
      by (unfold packageDir_of; by rewrite Ha).
    assert (packageDir_of relativeDir ab = "pkg-ab/") as Hdab
      by (unfold packageDir_of; by rewrite Hab).
    unfold listChangedPackages.
    destruct (two_values _ _ _ Hvalues) as [Hv|Hv];
      rewrite (dirMap_of_two _ _ _ _ Hv) by (rewrite Hda, Hdab; done);
      rewrite Hda, Hdab; destruct suffix; vm_compute; reflexivity.
  - intros relativeDir graph changedFiles pkg Hfiles
      (_ & (file & Hin & Hs) & _)%listChangedPackages_elem_of.
    destruct (Hfiles file Hin) as (c & rest & Hc & ->).
    unfold packageDir_of in Hs. by rewrite startsWith_sibling in Hs.
Qed.

(** ** Instances on the example graphs *)

Lemma fromPackages_duplicate_name_witness :
  (∃ graph, fromPackages cyclic_packages = Ok graph)
  ∧ (∃ pre pkg1 mid pkg2 post,
       duplicated_packages = pre ++ pkg1 :: mid ++ pkg2 :: post
       ∧ package_name pkg1 = package_name pkg2
       ∧ fromPackages duplicated_packages =
           Throw ("Duplicate package name '" +:+ package_name pkg2
                  +:+ "' at " +:+ dir pkg2 +:+ " and " +:+ dir pkg1))
  ∧ fromPackages duplicated_packages
    = Throw "Duplicate package name 'a' at other-a and pkg-a".
Proof.
  split_and!.
  - apply (proj1 (fromPackages_duplicate_name cyclic_packages)).
    apply (bool_decide_unpack _). vm_compute. reflexivity.
  - apply (proj2 (fromPackages_duplicate_name duplicated_packages)).
    apply (bool_decide_unpack _). vm_compute. reflexivity.
  - reflexivity.
Defined.

Example duplicated_packages_message :
  fromPackages duplicated_packages
  = Throw "Duplicate package name 'a' at other-a and pkg-a".
Proof. reflexivity. Qed.

Lemma allLocalDependencies_is_union_witness :
  fromPackages cyclic_packages = Ok cyclic_graph
  ∧ cyclic_b ∈ jsmap_values cyclic_graph
  ∧ allLocalDependencies cyclic_b =
      localDependencies cyclic_b ∪ localDevDependencies cyclic_b
      ∪ localOptionalDependencies cyclic_b.
Proof.
  assert (cyclic_b ∈ jsmap_values cyclic_graph) as Hnode by (right; left).
  split_and!; [reflexivity | exact Hnode |].
  apply (allLocalDependencies_is_union cyclic_packages cyclic_graph cyclic_b);
    [reflexivity | exact Hnode].
Defined.

Lemma publishedLocalDependencies_is_union_witness :
  fromPackages cyclic_packages = Ok cyclic_graph
  ∧ cyclic_b ∈ jsmap_values cyclic_graph
  ∧ publishedLocalDependencies cyclic_b =
      localDependencies cyclic_b ∪ localOptionalDependencies cyclic_b.
Proof.
  assert (cyclic_b ∈ jsmap_values cyclic_graph) as Hnode by (right; left).
  split_and!; [reflexivity | exact Hnode |].
  apply (publishedLocalDependencies_is_union cyclic_packages cyclic_graph cyclic_b);
    [reflexivity | exact Hnode].
Defined.

Lemma neighbour_maps_local_witness :
  NoDup (package_name <$> cyclic_packages)
  ∧ ∃ graph, fromPackages cyclic_packages = Ok graph
             ∧ ∀ node, node ∈ jsmap_values graph →
                 allLocalDependencies node !! "react" = None.
Proof.
  assert (NoDup (package_name <$> cyclic_packages)) as Hnd
    by (apply (bool_decide_unpack _); vm_compute; reflexivity).
  split; [exact Hnd|].
  destruct (neighbour_maps_local cyclic_packages Hnd) as (graph & Hbuilt & Hnodes).
  exists graph. split; [exact Hbuilt|]. intros node Hnode.
  apply (Hnodes node Hnode). apply (bool_decide_unpack _). vm_compute. reflexivity.
Defined.

Lemma cyclic_graph_closed name node depName :
  jsmap_get cyclic_graph name = Some node →
  depName ∈ collected_names (all_dependencies node) →
  is_Some (jsmap_get cyclic_graph depName).
Proof.
  intros Hget%jsmap_get_Some_elem_of Hdep.
  apply elem_of_cons in Hget as [[= -> ->]|Hget].
  - vm_compute in Hdep. apply list_elem_of_singleton in Hdep as ->.
    vm_compute. eauto.
  - apply list_elem_of_singleton in Hget as [= -> ->].
    vm_compute in Hdep. apply list_elem_of_singleton in Hdep as ->.
    vm_compute. eauto.
Qed.

Lemma collectPackageNames_expands_once_witness :
  ∃ result calls,
    collectPackageNames cyclic_graph ["a"; "b"; "a"] all_dependencies = Some (Ok result)
    ∧ collectFn_calls cyclic_graph ["a"; "b"; "a"] all_dependencies = Some calls
    ∧ (∀ name, invocations name calls = if decide (name ∈ result) then 1 else 0)
    ∧ (∀ fuel,
         search_fuel cyclic_graph all_dependencies ["a"; "b"; "a"] ≤ fuel →
         search_loop fuel cyclic_graph all_dependencies (search_start ["a"; "b"; "a"])
         = Some (Ok result, calls)).
Proof.
  apply (collectPackageNames_expands_once cyclic_graph ["a"; "b"; "a"] all_dependencies).
  - intros name Hname. apply (bool_decide_unpack _).
    rewrite !elem_of_cons, elem_of_nil in Hname.
    destruct Hname as [->|[->|[->|[]]]]; vm_compute; reflexivity.
  - exact cyclic_graph_closed.
Defined.


Lemma collectPackageNames_start_set_witness :
  list_to_set (C := gset string) ["a"; "b"; "a"] = list_to_set ["b"; "a"; "b"; "b"]
  ∧ (collectPackageNames cyclic_graph ["a"; "b"; "a"] all_dependencies
       = Some (Ok (list_to_set ["a"; "b"])) ↔
     collectPackageNames cyclic_graph ["b"; "a"; "b"; "b"] all_dependencies
       = Some (Ok (list_to_set ["a"; "b"]))).
Proof.
  assert (list_to_set (C := gset string) ["a"; "b"; "a"]
          = list_to_set ["b"; "a"; "b"; "b"]) as Hsame by (vm_compute; reflexivity).
  split; [exact Hsame|].
  apply (collectPackageNames_start_set cyclic_graph all_dependencies _ _ Hsame).
Defined.


Lemma listChangedPackages_sorted_order_witness :
  jsmap_values cyclic_graph ≡ₚ [cyclic_a; cyclic_b]
  ∧ listChangedPackages (λ dir, dir) cyclic_graph
      ["pkg-a/index.ts"; "pkg-b/readme.md"; "other/file.txt"] = [cyclic_a; cyclic_b].
Proof.
  assert (jsmap_values cyclic_graph ≡ₚ [cyclic_a; cyclic_b]) as Hvalues by reflexivity.
  split; [exact Hvalues|].
  apply (proj1 listChangedPackages_sorted_order (λ dir, dir) cyclic_graph
           cyclic_a cyclic_b Hvalues); reflexivity.
Defined.

Lemma listChangedPackages_sibling_prefix_witness :
  jsmap_values sibling_graph ≡ₚ [sibling_a; sibling_ab]
  ∧ listChangedPackages (λ dir, dir) sibling_graph ["pkg-ab/x.ts"] = [sibling_ab].
Proof.
  assert (jsmap_values sibling_graph ≡ₚ [sibling_a; sibling_ab]) as Hvalues
    by apply Permutation_swap.
  split; [exact Hvalues|].
  apply (proj1 listChangedPackages_sibling_prefix (λ dir, dir) sibling_graph
           sibling_a sibling_ab "x.ts" Hvalues); reflexivity.
Defined.

(** * Further properties of the code *)

(** ** Graph construction *)

Lemma jsmap_keys_populate graph : jsmap_keys (populate graph) = jsmap_keys graph.
Proof. unfold jsmap_keys, populate. by rewrite <-list_fmap_compose. Qed.

Lemma jsmap_get_populate graph key :
  jsmap_get (populate graph) key = populateNode graph <$> jsmap_get graph key.
Proof. apply jsmap_get_fmap. Qed.

Lemma new_entries_lookup packages pkg :
  NoDup (package_name <$> packages) →
  pkg ∈ packages →
  jsmap_get (new_entries packages) (package_name pkg) = Some (newNode pkg).
Proof.
  induction packages as [|pkg' packages IH]; csimpl; [by intros _ ?%elem_of_nil|].
  intros [Hout Hnd]%NoDup_cons [->|Hin]%elem_of_cons.
  - by rewrite decide_True.
  - rewrite decide_False; [by apply IH|].
    intros Heq. apply Hout. rewrite Heq. by apply list_elem_of_fmap_2.
Qed.

Lemma new_entries_present packages depName :
  is_Some (jsmap_get (new_entries packages) depName) ↔
  depName ∈ package_name <$> packages.
Proof. by rewrite jsmap_get_is_Some, jsmap_keys_new_entries. Qed.

(** X1: the built graph has one entry per descriptor, keyed by the
    descriptor's name, in the order of the input list. *)
Theorem fromPackages_keys packages graph :
  fromPackages packages = Ok graph →
  jsmap_keys graph = package_name <$> packages
  ∧ length graph = length packages.
Proof.
  intros [_ ->]%fromPackages_Ok_inv.
  rewrite jsmap_keys_populate, jsmap_keys_new_entries. split; [done|].
  unfold populate, new_entries. by rewrite !length_fmap.
Qed.

(** X2: looking up the name of a descriptor in the built graph gives a node
    that carries the descriptor's name, directory and [package.json]; and
    every entry of the graph is stored under the name of its node. *)
Theorem fromPackages_lookup packages graph :
  fromPackages packages = Ok graph →
  (∀ pkg, pkg ∈ packages →
     ∃ node, jsmap_get graph (package_name pkg) = Some node
             ∧ node_name node = package_name pkg
             ∧ node_dir node = dir pkg
             ∧ node_packageJson node = packageJson pkg)
  ∧ (∀ key node, jsmap_get graph key = Some node → node_name node = key).
Proof.
  intros [Hnd ->]%fromPackages_Ok_inv. split.
  - intros pkg Hpkg. exists (populateNode (new_entries packages) (newNode pkg)).
    rewrite jsmap_get_populate, (new_entries_lookup _ _ Hnd Hpkg).
    by rewrite populateNode_name, populateNode_dir, populateNode_packageJson.
  - intros key node. rewrite jsmap_get_populate.
    destruct (jsmap_get (new_entries packages) key) as [node0|] eqn:Hget; [|done].
    intros [= <-]. rewrite populateNode_name.
    apply jsmap_get_Some_elem_of, new_entries_elem_of in Hget as (pkg & _ & -> & ->).
    done.
Qed.

(** X3: a name is a key of [localDependencies] exactly when the descriptor
    lists it under [dependencies] and a descriptor of the input has that
    name; likewise [localDevDependencies] for [devDependencies] and
    [localOptionalDependencies] for [optionalDependencies]. The value is the
    reference to the node of that name. *)
Theorem fromPackages_links packages graph node :
  fromPackages packages = Ok graph →
  node ∈ jsmap_values graph →
  ∀ depName depPkg,
    (localDependencies node !! depName = Some depPkg ↔
     depPkg = depName
     ∧ depName ∈ Object_keys (dependencies (node_packageJson node))
     ∧ depName ∈ package_name <$> packages)
    ∧ (localDevDependencies node !! depName = Some depPkg ↔
       depPkg = depName
       ∧ depName ∈ Object_keys (devDependencies (node_packageJson node))
       ∧ depName ∈ package_name <$> packages)
    ∧ (localOptionalDependencies node !! depName = Some depPkg ↔
       depPkg = depName
       ∧ depName ∈ Object_keys (optionalDependencies (node_packageJson node))
       ∧ depName ∈ package_name <$> packages).
Proof.
  intros Hbuilt Hnode depName depPkg.
  destruct (built_node _ _ _ Hbuilt Hnode) as (pkg & _ & ->).
  rewrite populateNode_packageJson. neighbour_lookups.
  split_and!; case_decide as Hl;
    unfold linked, depNames_of, devDepNames_of, optionalDepNames_of in Hl;
    cbn [newNode node_packageJson] in *; rewrite new_entries_present in Hl;
    intuition congruence.
Qed.

(** A key of a neighbour map of a populated fresh node names an entry. *)
Lemma populated_key_present packages pkg m depName depPkg :
  m ∈ [allLocalDependencies (populateNode (new_entries packages) (newNode pkg));
       publishedLocalDependencies (populateNode (new_entries packages) (newNode pkg));
       localDependencies (populateNode (new_entries packages) (newNode pkg));
       localDevDependencies (populateNode (new_entries packages) (newNode pkg));
       localOptionalDependencies (populateNode (new_entries packages) (newNode pkg))] →
  m !! depName = Some depPkg →
  depPkg = depName ∧ depName ∈ package_name <$> packages.
Proof.
  rewrite !elem_of_cons, elem_of_nil.
  intros [->|[->|[->|[->|[->|[]]]]]]; neighbour_lookups;
    repeat case_decide; intros [= <-] || intros [=];
    (split; [done|]); by eapply linked_new_entries.
Qed.

(** X4: no neighbour reference dangles: a value of any of the five maps
    of a node of the built graph is the key of a node of that graph, whose
    name is the dependency name it is stored under. *)
Theorem fromPackages_no_dangling packages graph node m depName depPkg :
  fromPackages packages = Ok graph →
  node ∈ jsmap_values graph →
  m ∈ [allLocalDependencies node; publishedLocalDependencies node;
       localDependencies node; localDevDependencies node;
       localOptionalDependencies node] →
  m !! depName = Some depPkg →
  ∃ target, jsmap_get graph depPkg = Some target ∧ node_name target = depName.
Proof.
  intros Hbuilt Hnode Hm Hlookup.
  destruct (built_node _ _ _ Hbuilt Hnode) as (pkg & _ & ->).
  destruct (populated_key_present _ _ _ _ _ Hm Hlookup) as [-> Hname].
  apply fromPackages_Ok_inv in Hbuilt as [_ ->].
  apply new_entries_present in Hname as [node0 Hget].
  exists (populateNode (new_entries packages) node0).
  rewrite jsmap_get_populate, Hget. split; [done|]. rewrite populateNode_name.
  apply jsmap_get_Some_elem_of, new_entries_elem_of in Hget as (pkg' & _ & -> & ->).
  done.
Qed.

Lemma addPackages_app packages1 packages2 graph :
  addPackages (packages1 ++ packages2) graph =
  match addPackages packages1 graph with
  | Ok graph' => addPackages packages2 graph'
  | Throw message => Throw message
  end.
Proof.
  revert graph. induction packages1 as [|pkg packages1 IH]; intros graph; simpl; [done|].
  destruct (jsmap_get graph (name (packageJson pkg))); [done | apply IH].
Qed.

Lemma addPackages_NoDup packages :
  NoDup (package_name <$> packages) →
  addPackages packages [] = Ok (new_entries packages).
Proof.
  intros Hnd. pose proof (fromPackages_Ok packages Hnd) as Hok.
  unfold fromPackages in Hok.
  destruct (addPackages_cases packages [])
    as [(_ & _ & ->) | (pre & pkg & post & ex & -> & _ & _ & _ & Hthrow)]; [done|].
  by rewrite Hthrow in Hok.
Qed.

(** X5: the duplicate-name error is raised for the first descriptor whose
    name an earlier descriptor has: the descriptors before it have pairwise
    distinct names, the message carries its directory and the directory of
    that earlier descriptor, and the descriptors after it play no part. *)
Theorem fromPackages_first_duplicate packages message :
  fromPackages packages = Throw message →
  ∃ pre pkg post first,
    packages = pre ++ pkg :: post
    ∧ NoDup (package_name <$> pre)
    ∧ first ∈ pre
    ∧ package_name first = package_name pkg
    ∧ message = duplicate_message (package_name pkg) (dir pkg) (dir first)
    ∧ ∀ post', fromPackages (pre ++ pkg :: post') = Throw message.
Proof.
  unfold fromPackages.
  destruct (addPackages_cases packages [])
    as [(_ & _ & ->) | (pre & pkg & post & ex & -> & Hnd & _ & Hex & ->)]; [done|].
  intros [= <-]. simpl in Hex.
  pose proof Hex as (pre1 & first & mid & -> & Hname & ->)%new_entries_get.
  exists (pre1 ++ first :: mid), pkg, post, first.
  split_and!; [done | done | | done | done |].
  - apply elem_of_app. right. left.
  - intros post'. rewrite addPackages_app, (addPackages_NoDup _ Hnd). simpl.
    fold (package_name pkg). by rewrite Hex.
Qed.

(** ** The traversal *)

Lemma collectPackageNames_answers graph collectFn start :
  (∃ result, collectPackageNames graph start collectFn = Some (Ok result))
  ∨ (∃ message, collectPackageNames graph start collectFn = Some (Throw message)).
Proof.
  unfold collectPackageNames.
  destruct (collectPackageNames_run_terminates graph collectFn start)
    as [[[result|message] cs] ->]; simpl; eauto.
Qed.

Lemma collectPackageNames_Ok_intro graph collectFn start :
  (∀ name, encountered graph collectFn start name →
           is_Some (jsmap_get graph name)) →
  ∃ result, collectPackageNames graph start collectFn = Some (Ok result).
Proof.
  intros Hpres.
  destruct (collectPackageNames_answers graph collectFn start)
    as [?|[message Hthrow]]; [done|].
  apply collectPackageNames_Throw_inv in Hthrow as (name & _ & Hname & Hnone).
  apply Hpres in Hname as [node Hnode]. congruence.
Qed.

Lemma encountered_app graph collectFn start1 start2 name :
  encountered graph collectFn (start1 ++ start2) name ↔
  encountered graph collectFn start1 name ∨ encountered graph collectFn start2 name.
Proof.
  split.
  - induction 1 as [name [?|?]%elem_of_app | name node depName _ [IH|IH] Hget Hdep].
    + left. by apply encountered_start.
    + right. by apply encountered_start.
    + left. by eapply encountered_collected.
    + right. by eapply encountered_collected.
  - intros [H|H]; revert H; apply encountered_mono; intros ? ?; apply elem_of_app; auto.
Qed.

Lemma collectPackageNames_least_closed_aux graph start collectFn result :
  collectPackageNames graph start collectFn = Some (Ok result) →
  (∀ name, name ∈ result → is_Some (jsmap_get graph name))
  ∧ (∀ name node depName,
       name ∈ result → jsmap_get graph name = Some node →
       depName ∈ collected_names (collectFn node) → depName ∈ result).
Proof.
  intros [Hpres Hresult]%collectPackageNames_Ok_iff. split.
  - intros name Hname. by apply Hpres, Hresult.
  - intros name node depName Hname Hget Hdep. apply Hresult.
    eapply encountered_collected; [by apply Hresult | done..].
Qed.

(** X6: the set returned is the least set of names that holds the starting
    names and, with a name, the names [collectFn] answers for its node; all
    its names have a node. *)
Theorem collectPackageNames_least_closed graph start collectFn result :
  collectPackageNames graph start collectFn = Some (Ok result) →
  (∀ name, name ∈ start → name ∈ result)
  ∧ (∀ name, name ∈ result → is_Some (jsmap_get graph name))
  ∧ (∀ name node depName,
       name ∈ result → jsmap_get graph name = Some node →
       depName ∈ collected_names (collectFn node) → depName ∈ result)
  ∧ (∀ closed : gset string,
       (∀ name, name ∈ start → name ∈ closed) →
       (∀ name node depName,
          name ∈ closed → jsmap_get graph name = Some node →
          depName ∈ collected_names (collectFn node) → depName ∈ closed) →
       result ⊆ closed).
Proof.
  intros [Hpres Hresult]%collectPackageNames_Ok_iff. split_and!.
  - intros name Hname. by apply Hresult, encountered_start.
  - intros name Hname. by apply Hpres, Hresult.
  - intros name node depName Hname Hget Hdep. apply Hresult.
    eapply encountered_collected; [by apply Hresult | done..].
  - intros closed Hstart Hclosed name Hname%Hresult.
    induction Hname as [name Hin | name node depName _ IH Hget Hdep]; eauto.
Qed.

(** X7: starting from the concatenation of two lists returns a set exactly
    when starting from each list does, and the set is then the union of the
    two sets. *)
Theorem collectPackageNames_app graph collectFn start1 start2 result :
  collectPackageNames graph (start1 ++ start2) collectFn = Some (Ok result) ↔
  ∃ result1 result2,
    collectPackageNames graph start1 collectFn = Some (Ok result1)
    ∧ collectPackageNames graph start2 collectFn = Some (Ok result2)
    ∧ result = result1 ∪ result2.
Proof.
  split.
  - intros [Hpres Hresult]%collectPackageNames_Ok_iff.
    destruct (collectPackageNames_Ok_intro graph collectFn start1) as [result1 H1].
    { intros name Hname. apply Hpres, encountered_app. by left. }
    destruct (collectPackageNames_Ok_intro graph collectFn start2) as [result2 H2].
    { intros name Hname. apply Hpres, encountered_app. by right. }
    exists result1, result2. split_and!; [done | done |].
    apply collectPackageNames_Ok_iff in H1 as [_ H1], H2 as [_ H2].
    apply set_eq. intros name.
    by rewrite elem_of_union, Hresult, encountered_app, H1, H2.
  - intros (result1 & result2 & [Hp1 H1]%collectPackageNames_Ok_iff
            & [Hp2 H2]%collectPackageNames_Ok_iff & ->).
    apply collectPackageNames_Ok_iff. split.
    + intros name [?|?]%encountered_app; auto.
    + intros name. by rewrite elem_of_union, encountered_app, H1, H2.
Qed.

(** X8: the returned set is a fixed point: starting again from its names
    returns the same set. *)
Theorem collectPackageNames_idempotent graph start collectFn result :
  collectPackageNames graph start collectFn = Some (Ok result) →
  collectPackageNames graph (elements result) collectFn = Some (Ok result).
Proof.
  intros Hrun.
  destruct (collectPackageNames_least_closed_aux graph start collectFn result Hrun)
    as (Hpres & Hclosed).
  apply collectPackageNames_Ok_iff.
  assert (∀ name, encountered graph collectFn (elements result) name → name ∈ result)
    as Hin.
  { induction 1 as [name Hname | name node depName _ IH Hget Hdep].
    - by apply elem_of_elements.
    - by eapply Hclosed. }
  split.
  - intros name Hname. by apply Hpres, Hin.
  - intros name. split; [|apply Hin].
    intros Hname. apply encountered_start. by apply elem_of_elements.
Qed.

Lemma search_loop_calls_present graph collectFn start fuel st answer :
  search_inv graph collectFn start st →
  search_loop fuel graph collectFn st = Some answer →
  ∀ name, name ∈ answer.2 → is_Some (jsmap_get graph name).
Proof.
  assert (∀ st, search_inv graph collectFn start st →
                ∀ name, name ∈ calls st → is_Some (jsmap_get graph name)) as Hcalls.
  { intros st' Hinv name Hname.
    by apply (inv_present _ _ _ _ Hinv), (inv_calls_targets _ _ _ _ Hinv). }
  revert st. induction fuel as [|fuel IH]; intros [tg names cs] Hinv; simpl.
  - destruct names as [|name rest]; [|done]. intros [= <-]. by apply (Hcalls _ Hinv).
  - destruct names as [|name rest].
    + intros [= <-]. by apply (Hcalls _ Hinv).
    + destruct (search_body graph collectFn name tg rest cs) as [st'|message] eqn:Hbody.
      * apply IH. by eapply search_inv_body.
      * intros [= <-]. by apply (Hcalls _ Hinv).
Qed.

(** X9: for every graph, every list of starting names and every
    [collectFn], the loop is left within the iterations allowed and the
    call answers, with a set or with an error; allowing more iterations
    gives the same answer. Whatever the answer, [collectFn] has been called
    at most once per name and only for names that have a node. *)
Theorem collectPackageNames_always_answers graph start collectFn :
  ∃ answer calls,
    collectPackageNames_run graph start collectFn = Some (answer, calls)
    ∧ NoDup calls
    ∧ (∀ name, name ∈ calls → is_Some (jsmap_get graph name))
    ∧ (∀ fuel, search_fuel graph collectFn start ≤ fuel →
               search_loop fuel graph collectFn (search_start start)
               = Some (answer, calls)).
Proof.
  destruct (collectPackageNames_run_post graph collectFn start)
    as ([answer cs] & Hrun & Hnd & _).
  exists answer, cs. split_and!; [done | done | |].
  - intros name. apply (search_loop_calls_present graph collectFn start _ _ (answer, cs)
                          (search_inv_start graph collectFn start) Hrun).
  - intros fuel Hfuel. by eapply search_loop_more_fuel.
Qed.



Lemma built_neighbour_key packages graph node depName :
  fromPackages packages = Ok graph →
  node ∈ jsmap_values graph →
  depName ∈ neighbour_keys node →
  depName ∈ package_name <$> packages.
Proof.
  intros Hbuilt Hnode Hkey.
  destruct (built_node _ _ _ Hbuilt Hnode) as (pkg & _ & ->).
  unfold neighbour_keys in Hkey. rewrite !elem_of_union, !elem_of_dom in Hkey.
  destruct Hkey as [[[[[v Hv]|[v Hv]]|[v Hv]]|[v Hv]]|[v Hv]];
    eapply (populated_key_present packages pkg _ depName v); try exact Hv;
    rewrite !elem_of_cons; auto 10.
Qed.

(** X11: on a graph built by [fromPackages], a traversal that starts from
    names of descriptors and follows keys of the neighbour maps never
    throws, and returns names of descriptors only. *)
Theorem fromPackages_traversal packages graph start collectFn :
  fromPackages packages = Ok graph →
  (∀ name, name ∈ start → name ∈ package_name <$> packages) →
  (∀ node depName,
     node ∈ jsmap_values graph →
     depName ∈ collected_names (collectFn node) →
     depName ∈ neighbour_keys node) →
  ∃ result,
    collectPackageNames graph start collectFn = Some (Ok result)
    ∧ ∀ name, name ∈ result → name ∈ package_name <$> packages.
Proof.
  intros Hbuilt Hstart Hfn.
  assert (∀ name, encountered graph collectFn start name →
                  name ∈ package_name <$> packages) as Henc.
  { induction 1 as [name Hname | name node depName _ IH Hget Hdep]; [auto|].
    assert (node ∈ jsmap_values graph) as Hnode.
    { apply jsmap_get_Some_elem_of in Hget.
      by apply (list_elem_of_fmap_2 snd) in Hget. }
    eapply built_neighbour_key; eauto. }
  destruct (collectPackageNames_Ok_intro graph collectFn start) as [result Hrun].
  { intros name Hname%Henc. apply jsmap_get_is_Some.
    destruct (fromPackages_Ok_inv _ _ Hbuilt) as [_ ->].
    by rewrite jsmap_keys_populate, jsmap_keys_new_entries. }
  exists result. split; [done|].
  intros name Hname. apply Henc.
  by apply (collectPackageNames_Ok_iff graph collectFn start result).
Qed.

(** ** Change detection *)

(** [new Map(entries)] keeps, for a key, the value of its last entry. *)
Lemma jsmap_set_all_get_last {V} (m : jsmap V) entries key value :
  jsmap_get (foldl (λ m e, jsmap_set m e.1 e.2) m entries) key = Some value ↔
  (∃ pre post, entries = pre ++ (key, value) :: post ∧ key ∉ post.*1)
  ∨ ((key ∉ entries.*1) ∧ jsmap_get m key = Some value).
Proof.
  revert m. induction entries as [|[k v] entries IH]; intros m; csimpl.
  - split.
    + intros Hget. right. split; [apply not_elem_of_nil | done].
    + intros [(pre & post & Heq & _)|[_ ?]]; [|done]. by destruct pre.
  - rewrite IH, jsmap_get_set. split.
    + intros [(pre & post & -> & Hout)|[Hout Hget]].
      * left. by exists ((k, v) :: pre), post.
      * destruct (decide (k = key)) as [->|Hne].
        -- injection Hget as ->. left. by exists [], entries.
        -- right. split; [|done]. rewrite not_elem_of_cons. by split.
    + intros [(pre & post & Heq & Hout)|[[Hne Hout]%not_elem_of_cons Hget]].
      * destruct pre as [|e pre]; simplify_eq/=.
        -- right. split; [done|]. by rewrite decide_True.
        -- left. by exists pre, post.
      * right. split; [done|]. by rewrite decide_False.
Qed.

Lemma dirMap_of_get_last relativeDir graph packageDir pkg :
  jsmap_get (dirMap_of relativeDir graph) packageDir = Some pkg ↔
  packageDir_of relativeDir pkg = packageDir
  ∧ ∃ pre post,
      jsmap_values graph = pre ++ pkg :: post
      ∧ ∀ other, other ∈ post →
          packageDir_of relativeDir other ≠ packageDir_of relativeDir pkg.
Proof.
  unfold dirMap_of, jsmap_of_entries. rewrite jsmap_set_all_get_last. split.
  - intros [(pre & post & Heq & Hout)|[_ ?]]; [|done].
    apply fmap_app_inv in Heq as (pre' & rest & -> & Hrest & Hvalues).
    symmetry in Hrest.
    apply fmap_cons_inv in Hrest as (pkg' & post' & Hhead & -> & ->).
    injection Hhead as -> ->.
    split; [done|]. exists pre', post'. split; [done|].
    intros other Hother Heq. apply Hout. rewrite <-list_fmap_compose.
    apply list_elem_of_fmap. exists other. by split.
  - intros [<- (pre & post & Hvalues & Hout)]. left.
    exists ((λ pkg, (packageDir_of relativeDir pkg, pkg)) <$> pre),
           ((λ pkg, (packageDir_of relativeDir pkg, pkg)) <$> post).
    split; [by rewrite Hvalues, fmap_app|].
    rewrite <-list_fmap_compose. intros (other & Heq & Hother)%list_elem_of_fmap.
    by apply (Hout other Hother).
Qed.

Lemma outermost_values relativeDir graph packageDir :
  outermost (jsmap_keys (dirMap_of relativeDir graph)) packageDir ↔
  ∀ other, other ∈ jsmap_values graph →
           startsWith packageDir (packageDir_of relativeDir other) = true →
           packageDir_of relativeDir other = packageDir.
Proof.
  unfold outermost. split.
  - intros Hout other Hother. apply Hout, dirMap_of_keys. by exists other.
  - intros Hout d (other & Hother & <-)%dirMap_of_keys. by apply Hout.
Qed.

(** X12: a package is listed exactly when a changed file lies under its
    directory, the directory of no package is a proper prefix of its
    directory, and no package after it in the graph has the same
    directory. *)
Theorem listChangedPackages_listed relativeDir graph changedFiles pkg :
  pkg ∈ listChangedPackages relativeDir graph changedFiles ↔
  (∃ file, file ∈ changedFiles
           ∧ startsWith file (packageDir_of relativeDir pkg) = true)
  ∧ (∀ other, other ∈ jsmap_values graph →
       startsWith (packageDir_of relativeDir pkg) (packageDir_of relativeDir other) = true →
       packageDir_of relativeDir other = packageDir_of relativeDir pkg)
  ∧ (∃ pre post,
       jsmap_values graph = pre ++ pkg :: post
       ∧ ∀ other, other ∈ post →
           packageDir_of relativeDir other ≠ packageDir_of relativeDir pkg).
Proof.
  rewrite listChangedPackages_elem_of, dirMap_of_get_last, outermost_values.
  unfold owns_file. split.
  - intros ((_ & Hlast) & Hown & Hout). done.
  - intros (Hown & Hout & Hlast). done.
Qed.

(** X13: without changed files no package is listed, whatever the graph. *)
Theorem listChangedPackages_no_files relativeDir graph :
  listChangedPackages relativeDir graph [] = [].
Proof.
  destruct (listChangedPackages_hits relativeDir graph []) as (hits & -> & _ & Hhits).
  destruct hits as [|packageDir hits]; [done|].
  destruct (proj1 (Hhits packageDir)) as (_ & (file & Hfile & _) & _); [left|].
  by apply elem_of_nil in Hfile.
Qed.

(** X14: the list holds nodes of the graph and holds no package twice;
    more, no two listed packages have the same directory. *)
Theorem listChangedPackages_NoDup relativeDir graph changedFiles :
  NoDup (packageDir_of relativeDir <$> listChangedPackages relativeDir graph changedFiles)
  ∧ NoDup (listChangedPackages relativeDir graph changedFiles)
  ∧ ∀ pkg, pkg ∈ listChangedPackages relativeDir graph changedFiles →
           pkg ∈ jsmap_values graph.
Proof.
  assert (NoDup (packageDir_of relativeDir <$>
                   listChangedPackages relativeDir graph changedFiles)) as Hnd.
  { destruct (listChangedPackages_hits relativeDir graph changedFiles)
      as (hits & -> & Hsub & Hhits).
    rewrite listChangedPackages_dirs by (intros d Hd; by apply Hhits in Hd as [? _]).
    eapply sublist_NoDup; [|exact Hsub].
    rewrite sort_Permutation. apply jsmap_of_entries_NoDup. }
  split_and!; [done | by eapply NoDup_fmap_1 |].
  intros pkg (Hget & _)%listChangedPackages_elem_of.
  by apply dirMap_of_get in Hget as [? _].
Qed.

(** X15: the answer depends on the changed files as a set: two lists with
    the same elements, in any order and multiplicity, give the same list
    of packages. *)
Theorem listChangedPackages_files_set relativeDir graph changedFiles1 changedFiles2 :
  (∀ file, file ∈ changedFiles1 ↔ file ∈ changedFiles2) →
  listChangedPackages relativeDir graph changedFiles1 =
  listChangedPackages relativeDir graph changedFiles2.
Proof.
  intros Hsame. apply listChangedPackages_owned. intros packageDir _.
  unfold owns_file. by setoid_rewrite Hsame.
Qed.

(** X16: when no two packages share a directory and no package directory
    lies inside another, the packages listed are exactly the packages of
    the graph with a changed file under their directory. *)
Theorem listChangedPackages_flat relativeDir graph changedFiles :
  NoDup (packageDir_of relativeDir <$> jsmap_values graph) →
  (∀ pkg other, pkg ∈ jsmap_values graph → other ∈ jsmap_values graph →
     startsWith (packageDir_of relativeDir pkg) (packageDir_of relativeDir other) = true →
     packageDir_of relativeDir other = packageDir_of relativeDir pkg) →
  ∀ pkg,
    pkg ∈ listChangedPackages relativeDir graph changedFiles ↔
    pkg ∈ jsmap_values graph
    ∧ ∃ file, file ∈ changedFiles
              ∧ startsWith file (packageDir_of relativeDir pkg) = true.
Proof.
  intros Hnd Hflat pkg.
  rewrite listChangedPackages_elem_of, dirMap_of_get_last, outermost_values.
  unfold owns_file. split.
  - intros ((_ & pre & post & Hvalues & _) & Hown & _). split; [|done].
    rewrite Hvalues. apply elem_of_app. right. left.
  - intros [Hpkg Hown].
    split_and!; [done | | done | intros other ?; by apply Hflat].
    apply list_elem_of_split in Hpkg as (pre & post & Hvalues).
    exists pre, post. split; [done|]. intros other Hother Heq.
    rewrite Hvalues, fmap_app, fmap_cons in Hnd.
    apply NoDup_app in Hnd as (_ & _ & [Hout _]%NoDup_cons).
    apply Hout. rewrite <-Heq. by apply list_elem_of_fmap_2.
Qed.

Lemma advance_bound p rest searchIndex :
  advance p rest searchIndex ≤ searchIndex + length rest.
Proof.
  revert searchIndex. induction rest as [|file rest IH]; intros i; simpl; [lia|].
  destruct (p file); [|lia]. specialize (IH (S i)). lia.
Qed.

Lemma skip_while_bound p changedFiles searchIndex :
  searchIndex ≤ length changedFiles →
  skip_while p changedFiles searchIndex ≤ length changedFiles.
Proof.
  intros Hle. unfold skip_while.
  pose proof (advance_bound p (drop searchIndex changedFiles) searchIndex) as Hb.
  rewrite length_drop in Hb. lia.
Qed.

(** Every package pushed moves the cursor by one file at least, and the
    cursor stays within the files. *)
Lemma scan_packageDir_count changedFiles dirMap searchIndex result packageDir :
  searchIndex ≤ length changedFiles →
  (scan_packageDir changedFiles dirMap (searchIndex, result) packageDir).1
    ≤ length changedFiles
  ∧ length (scan_packageDir changedFiles dirMap (searchIndex, result) packageDir).2
      + searchIndex
    ≤ length result
      + (scan_packageDir changedFiles dirMap (searchIndex, result) packageDir).1.
Proof.
  intros Hle. unfold scan_packageDir.
  pose proof (skip_while_bound (λ file, str_lt file packageDir) changedFiles
                searchIndex Hle) as Hb1.
  destruct (skip_while_spec (λ file, str_lt file packageDir) changedFiles searchIndex)
    as (Hle1 & _ & _).
  set (i1 := skip_while (λ file, str_lt file packageDir) changedFiles searchIndex) in *.
  destruct (changedFiles !! i1) as [file|] eqn:Hfile; [|simpl; lia].
  destruct (startsWith file packageDir); [|simpl; lia].
  apply lookup_lt_Some in Hfile.
  pose proof (skip_while_bound (λ file, startsWith file packageDir) changedFiles
                (S i1) Hfile) as Hb2.
  destruct (skip_while_spec (λ file, startsWith file packageDir) changedFiles (S i1))
    as (Hle2 & _ & _).
  simpl. rewrite length_app.
  assert (length (option_list (jsmap_get dirMap packageDir)) ≤ 1)
    by (destruct (jsmap_get dirMap packageDir); simpl; lia).
  lia.
Qed.

Lemma scan_loop_count changedFiles dirMap packageDirs searchIndex result :
  searchIndex ≤ length changedFiles →
  length (foldl (scan_packageDir changedFiles dirMap) (searchIndex, result)
            packageDirs).2 + searchIndex
  ≤ length result + length changedFiles.
Proof.
  revert searchIndex result.
  induction packageDirs as [|packageDir packageDirs IH]; intros i res Hle;
    cbn [foldl]; [simpl; lia|].
  destruct (scan_packageDir_count changedFiles dirMap i res packageDir Hle)
    as [Hle' Hcount].
  destruct (scan_packageDir changedFiles dirMap (i, res) packageDir) as [i' res'].
  simpl in *. specialize (IH i' res' Hle'). lia.
Qed.

(** X17: the list is never longer than the list of changed files, nor than
    the number of packages of the graph. *)
Theorem listChangedPackages_length relativeDir graph changedFiles :
  length (listChangedPackages relativeDir graph changedFiles) ≤ length changedFiles
  ∧ length (listChangedPackages relativeDir graph changedFiles) ≤ length graph.
Proof.
  split.
  - unfold listChangedPackages.
    pose proof (scan_loop_count (sort changedFiles) (dirMap_of relativeDir graph)
                  (sort (jsmap_keys (dirMap_of relativeDir graph))) 0 [] ltac:(lia))
      as Hcount.
    simpl in Hcount.
    assert (length (sort changedFiles) = length changedFiles) as Hlen
      by (by rewrite sort_Permutation).
    rewrite Hlen in Hcount. lia.
  - assert (length graph = length (jsmap_values graph)) as ->
      by (unfold jsmap_values; by rewrite length_fmap).
    apply submseteq_length, NoDup_submseteq.
    + destruct (listChangedPackages_hits relativeDir graph changedFiles)
        as (hits & -> & Hsub & Hhits).
      apply (NoDup_fmap_1 (packageDir_of relativeDir)).
      rewrite listChangedPackages_dirs by (intros d Hd; by apply Hhits in Hd as [? _]).
      eapply sublist_NoDup; [|exact Hsub].
      rewrite sort_Permutation. apply jsmap_of_entries_NoDup.
    + intros pkg (Hget & _)%listChangedPackages_elem_of.
      by apply dirMap_of_get in Hget as [? _].
Qed.

Lemma NoDup_fmap_inj_on {A B} (f : A → B) (l : list A) x y :
  NoDup (f <$> l) → x ∈ l → y ∈ l → f x = f y → x = y.
Proof.
  induction l as [|z l IH]; csimpl; [by intros _ ?%elem_of_nil|].
  intros [Hout Hnd]%NoDup_cons [->|Hx]%elem_of_cons [->|Hy]%elem_of_cons Heq.
  - done.
  - exfalso. apply Hout. rewrite Heq. by apply list_elem_of_fmap_2.
  - exfalso. apply Hout. rewrite <-Heq. by apply list_elem_of_fmap_2.
  - by apply IH.
Qed.

Lemma bind_ext_elem_of {A B} (f g : A → list B) (l : list A) :
  (∀ x, x ∈ l → f x = g x) → l ≫= f = l ≫= g.
Proof.
  induction l as [|x l IH]; intros Hfg; [done|].
  rewrite !bind_cons, (Hfg x) by left. f_equal. apply IH.
  intros y Hy. apply Hfg. by right.
Qed.

(** X18: when no two packages share a directory, the answer does not depend
    on the order in which the graph holds its packages. *)
Theorem listChangedPackages_graph_order relativeDir graph1 graph2 changedFiles :
  jsmap_values graph1 ≡ₚ jsmap_values graph2 →
  NoDup (packageDir_of relativeDir <$> jsmap_values graph1) →
  listChangedPackages relativeDir graph1 changedFiles =
  listChangedPackages relativeDir graph2 changedFiles.
Proof.
  intros Hperm Hnd.
  assert (∀ d, d ∈ jsmap_keys (dirMap_of relativeDir graph1) ↔
               d ∈ jsmap_keys (dirMap_of relativeDir graph2)) as Hkeys.
  { intros d. rewrite !dirMap_of_keys. by setoid_rewrite Hperm. }
  assert (sort (jsmap_keys (dirMap_of relativeDir graph1)) =
          sort (jsmap_keys (dirMap_of relativeDir graph2))) as Hsort.
  { apply (StronglySorted_unique String.le); [apply sort_sorted..|].
    rewrite !sort_Permutation.
    apply NoDup_Permutation; [apply jsmap_of_entries_NoDup..|done]. }
  destruct (listChangedPackages_hits relativeDir graph1 changedFiles)
    as (hits1 & -> & Hsub1 & Hhits1).
  destruct (listChangedPackages_hits relativeDir graph2 changedFiles)
    as (hits2 & -> & Hsub2 & Hhits2).
  assert (hits1 = hits2) as <-.
  { eapply sublist_unique; [|exact Hsub1|by rewrite Hsort|].
    - rewrite sort_Permutation. apply jsmap_of_entries_NoDup.
    - intros d. rewrite Hhits1, Hhits2, Hkeys. unfold outermost.
      by setoid_rewrite Hkeys. }
  apply bind_ext_elem_of. intros d (Hkey1 & _)%Hhits1. unfold getl.
  pose proof Hkey1 as Hkey2%Hkeys.
  apply jsmap_get_is_Some in Hkey1 as [pkg1 Hget1], Hkey2 as [pkg2 Hget2].
  rewrite Hget1, Hget2. do 2 f_equal.
  apply dirMap_of_get in Hget1 as [Hin1 Hd1], Hget2 as [Hin2 Hd2].
  apply (NoDup_fmap_inj_on (packageDir_of relativeDir) (jsmap_values graph1));
    [done | done | by rewrite Hperm | congruence].
Qed.

Lemma startsWith_refl s : startsWith s s = true.
Proof.
  unfold startsWith. induction s as [|a s IH]; simpl; [done|].
  destruct (ascii_dec a a); [done | congruence].
Qed.

Lemma startsWith_shorter s p :
  startsWith s p = true → p ≠ s → String.length p < String.length s.
Proof.
  unfold startsWith. revert p. induction s as [|a s IH]; intros [|b p]; simpl; try done.
  - intros _ _. lia.
  - destruct (ascii_dec b a) as [->|]; [|done]. intros Hpre Hne.
    assert (String.length p < String.length s); [|lia].
    apply IH; [done|]. congruence.
Qed.

(** Among the package directories that are prefixes of a package directory
    there is one that has no other as a prefix. *)
Lemma outermost_exists (packageDirs : list string) packageDir :
  packageDir ∈ packageDirs →
  ∃ outer, outer ∈ packageDirs
           ∧ startsWith packageDir outer = true
           ∧ outermost packageDirs outer.
Proof.
  remember (String.length packageDir) as n eqn:Hn. revert packageDir Hn.
  induction n as [n IH] using lt_wf_ind. intros packageDir -> Hin.
  destruct (decide (Forall (λ other, startsWith packageDir other = true
                                     → other = packageDir) packageDirs))
    as [Hall|Hsome].
  - exists packageDir. split_and!; [done | apply startsWith_refl |].
    rewrite Forall_forall in Hall. exact Hall.
  - apply not_Forall_Exists in Hsome; [|apply _].
    apply Exists_exists in Hsome as (other & Hother & Hnot). simpl in Hnot.
    destruct (startsWith packageDir other) eqn:Hpre; [|by destruct Hnot].
    assert (other ≠ packageDir) as Hne by (intros ->; by apply Hnot).
    destruct (IH (String.length other) (startsWith_shorter _ _ Hpre Hne) other eq_refl Hother)
      as (outer & Houter & Hpre' & Hout).
    exists outer. split_and!; [done | | done].
    by apply (startsWith_trans packageDir other outer).
Qed.

(** X19: no change under a package is lost: for a changed file under the
    directory of a package of the graph, a package is listed whose
    directory is a prefix of that directory, and so holds the file. *)
Theorem listChangedPackages_attributes relativeDir graph changedFiles file pkg :
  file ∈ changedFiles →
  pkg ∈ jsmap_values graph →
  startsWith file (packageDir_of relativeDir pkg) = true →
  ∃ listed,
    listed ∈ listChangedPackages relativeDir graph changedFiles
    ∧ startsWith (packageDir_of relativeDir pkg) (packageDir_of relativeDir listed) = true
    ∧ startsWith file (packageDir_of relativeDir listed) = true.
Proof.
  intros Hfile Hpkg Hunder.
  destruct (outermost_exists (jsmap_keys (dirMap_of relativeDir graph))
              (packageDir_of relativeDir pkg))
    as (outer & Hkey & Hpre & Hout).
  { apply dirMap_of_keys. by exists pkg. }
  pose proof Hkey as [listed Hget]%jsmap_get_is_Some.
  pose proof Hget as [_ Hdir]%dirMap_of_get. subst outer.
  assert (startsWith file (packageDir_of relativeDir listed) = true) as Hfile'
    by (by eapply startsWith_trans).
  exists listed. split_and!; [|done..].
  apply listChangedPackages_elem_of. split_and!; [done | by exists file | done].
Qed.

(** ** Instances of the further properties on the example graphs *)

Lemma fromPackages_keys_witness :
  fromPackages cyclic_packages = Ok cyclic_graph
  ∧ jsmap_keys cyclic_graph = package_name <$> cyclic_packages
  ∧ length cyclic_graph = length cyclic_packages.
Proof.
  split; [reflexivity|].
  apply (fromPackages_keys cyclic_packages cyclic_graph). reflexivity.
Defined.

Lemma fromPackages_lookup_witness :
  fromPackages cyclic_packages = Ok cyclic_graph
  ∧ ∀ key node, jsmap_get cyclic_graph key = Some node → node_name node = key.
Proof.
  split; [reflexivity|].
  apply (fromPackages_lookup cyclic_packages cyclic_graph). reflexivity.
Defined.

Lemma fromPackages_links_witness :
  fromPackages cyclic_packages = Ok cyclic_graph
  ∧ cyclic_a ∈ jsmap_values cyclic_graph
  ∧ (localDependencies cyclic_a !! "react" = Some "react" ↔
     "react" = "react"
     ∧ "react" ∈ Object_keys (dependencies (node_packageJson cyclic_a))
     ∧ "react" ∈ package_name <$> cyclic_packages).
Proof.
  assert (cyclic_a ∈ jsmap_values cyclic_graph) as Hnode by left.
  split_and!; [reflexivity | exact Hnode |].
  apply (fromPackages_links cyclic_packages cyclic_graph cyclic_a eq_refl Hnode
           "react" "react").
Defined.

Lemma fromPackages_no_dangling_witness :
  fromPackages cyclic_packages = Ok cyclic_graph
  ∧ cyclic_b ∈ jsmap_values cyclic_graph
  ∧ localDevDependencies cyclic_b !! "a" = Some "a"
  ∧ ∃ target, jsmap_get cyclic_graph "a" = Some target ∧ node_name target = "a".
Proof.
  assert (cyclic_b ∈ jsmap_values cyclic_graph) as Hnode by (right; left).
  assert (localDevDependencies cyclic_b !! "a" = Some "a") as Hlookup
    by (vm_compute; reflexivity).
  split_and!; [reflexivity | exact Hnode | exact Hlookup |].
  apply (fromPackages_no_dangling cyclic_packages cyclic_graph cyclic_b
           (localDevDependencies cyclic_b) "a" "a" eq_refl Hnode);
    [|exact Hlookup].
  do 3 right. left.
Defined.

Lemma fromPackages_first_duplicate_witness :
  fromPackages duplicated_packages
    = Throw "Duplicate package name 'a' at other-a and pkg-a"
  ∧ ∃ pre pkg post first,
      duplicated_packages = pre ++ pkg :: post
      ∧ NoDup (package_name <$> pre)
      ∧ first ∈ pre
      ∧ package_name first = package_name pkg
      ∧ "Duplicate package name 'a' at other-a and pkg-a"
        = duplicate_message (package_name pkg) (dir pkg) (dir first)
      ∧ ∀ post', fromPackages (pre ++ pkg :: post')
                 = Throw "Duplicate package name 'a' at other-a and pkg-a".
Proof.
  split; [reflexivity|].
  apply (fromPackages_first_duplicate duplicated_packages). reflexivity.
Defined.

Lemma collectPackageNames_least_closed_witness :
  collectPackageNames cyclic_graph ["a"] all_dependencies
    = Some (Ok (list_to_set ["a"; "b"]))
  ∧ ∀ name, name ∈ ["a"] → name ∈ (list_to_set ["a"; "b"] : gset string).
Proof.
  assert (collectPackageNames cyclic_graph ["a"] all_dependencies
          = Some (Ok (list_to_set ["a"; "b"]))) as Hrun by (vm_compute; reflexivity).
  split; [exact Hrun|].
  apply (collectPackageNames_least_closed cyclic_graph ["a"] all_dependencies _ Hrun).
Defined.

Lemma collectPackageNames_idempotent_witness :
  collectPackageNames cyclic_graph ["a"] all_dependencies
    = Some (Ok (list_to_set ["a"; "b"]))
  ∧ collectPackageNames cyclic_graph (elements (list_to_set ["a"; "b"] : gset string))
      all_dependencies
    = Some (Ok (list_to_set ["a"; "b"])).
Proof.
  assert (collectPackageNames cyclic_graph ["a"] all_dependencies
          = Some (Ok (list_to_set ["a"; "b"]))) as Hrun by (vm_compute; reflexivity).
  split; [exact Hrun|].
  apply (collectPackageNames_idempotent cyclic_graph ["a"] all_dependencies _ Hrun).
Defined.


Lemma all_dependencies_neighbour_keys node depName :
  depName ∈ collected_names (all_dependencies node) → depName ∈ neighbour_keys node.
Proof.
  unfold all_dependencies, neighbour_keys. simpl. rewrite elem_of_elements.
  rewrite !elem_of_union. auto 10.
Qed.

Lemma fromPackages_traversal_witness :
  fromPackages cyclic_packages = Ok cyclic_graph
  ∧ ∃ result,
      collectPackageNames cyclic_graph ["b"] all_dependencies = Some (Ok result)
      ∧ ∀ name, name ∈ result → name ∈ package_name <$> cyclic_packages.
Proof.
  split; [reflexivity|].
  apply (fromPackages_traversal cyclic_packages cyclic_graph ["b"] all_dependencies
           eq_refl).
  - intros name ->%list_elem_of_singleton. right. left.
  - intros node depName _. apply all_dependencies_neighbour_keys.
Defined.

Lemma listChangedPackages_files_set_witness :
  (∀ file, file ∈ ["pkg-b/x"; "pkg-a/y"; "pkg-b/x"] ↔ file ∈ ["pkg-a/y"; "pkg-b/x"])
  ∧ listChangedPackages (λ dir, dir) cyclic_graph ["pkg-b/x"; "pkg-a/y"; "pkg-b/x"]
    = listChangedPackages (λ dir, dir) cyclic_graph ["pkg-a/y"; "pkg-b/x"].
Proof.
  assert (∀ file, file ∈ ["pkg-b/x"; "pkg-a/y"; "pkg-b/x"]
                  ↔ file ∈ ["pkg-a/y"; "pkg-b/x"]) as Hsame.
  { intros file. rewrite !elem_of_cons, elem_of_nil. tauto. }
  split; [exact Hsame|].
  apply (listChangedPackages_files_set (λ dir, dir) cyclic_graph _ _ Hsame).
Defined.

Lemma cyclic_graph_flat pkg other :
  pkg ∈ jsmap_values cyclic_graph → other ∈ jsmap_values cyclic_graph →
  startsWith (packageDir_of (λ dir, dir) pkg) (packageDir_of (λ dir, dir) other) = true →
  packageDir_of (λ dir, dir) other = packageDir_of (λ dir, dir) pkg.
Proof.
  intros Hpkg Hother.
  apply elem_of_cons in Hpkg as [->|Hpkg];
    [|apply list_elem_of_singleton in Hpkg as ->];
    (apply elem_of_cons in Hother as [->|Hother];
     [|apply list_elem_of_singleton in Hother as ->]);
    vm_compute; congruence.
Qed.

Lemma listChangedPackages_flat_witness :
  NoDup (packageDir_of (λ dir, dir) <$> jsmap_values cyclic_graph)
  ∧ (cyclic_b ∈ listChangedPackages (λ dir, dir) cyclic_graph ["pkg-b/x"; "z"] ↔
     cyclic_b ∈ jsmap_values cyclic_graph
     ∧ ∃ file, file ∈ ["pkg-b/x"; "z"]
               ∧ startsWith file (packageDir_of (λ dir, dir) cyclic_b) = true).
Proof.
  assert (NoDup (packageDir_of (λ dir, dir) <$> jsmap_values cyclic_graph)) as Hnd
    by (apply (bool_decide_unpack _); vm_compute; reflexivity).
  split; [exact Hnd|].
  apply (listChangedPackages_flat (λ dir, dir) cyclic_graph ["pkg-b/x"; "z"] Hnd
           cyclic_graph_flat).
Defined.

Lemma listChangedPackages_graph_order_witness :
  jsmap_values sibling_graph ≡ₚ jsmap_values (reverse sibling_graph)
  ∧ NoDup (packageDir_of (λ dir, dir) <$> jsmap_values sibling_graph)
  ∧ listChangedPackages (λ dir, dir) sibling_graph ["pkg-ab/x"; "pkg-a/y"]
    = listChangedPackages (λ dir, dir) (reverse sibling_graph) ["pkg-ab/x"; "pkg-a/y"].
Proof.
  assert (jsmap_values sibling_graph ≡ₚ jsmap_values (reverse sibling_graph)) as Hperm
    by apply Permutation_swap.
  assert (NoDup (packageDir_of (λ dir, dir) <$> jsmap_values sibling_graph)) as Hnd
    by (apply (bool_decide_unpack _); vm_compute; reflexivity).
  split_and!; [exact Hperm | exact Hnd |].
  apply (listChangedPackages_graph_order (λ dir, dir) sibling_graph
           (reverse sibling_graph) _ Hperm Hnd).
Defined.

Lemma listChangedPackages_attributes_witness :
  "pkg/sub/x.ts" ∈ ["pkg/sub/x.ts"]
  ∧ nested_child ∈ jsmap_values nested_graph
  ∧ ∃ listed,
      listed ∈ listChangedPackages (λ dir, dir) nested_graph ["pkg/sub/x.ts"]
      ∧ startsWith (packageDir_of (λ dir, dir) nested_child)
          (packageDir_of (λ dir, dir) listed) = true
      ∧ startsWith "pkg/sub/x.ts" (packageDir_of (λ dir, dir) listed) = true.
Proof.
  assert ("pkg/sub/x.ts" ∈ ["pkg/sub/x.ts"]) as Hfile by left.
  assert (nested_child ∈ jsmap_values nested_graph) as Hpkg by (right; left).
  split_and!; [exact Hfile | exact Hpkg |].
  apply (listChangedPackages_attributes (λ dir, dir) nested_graph ["pkg/sub/x.ts"]
           "pkg/sub/x.ts" nested_child Hfile Hpkg).
  reflexivity.
Defined.
